(** * Boid flocking: [Boid], [Flock] and [FlockingApp] (src/main.cpp)

    The program stores every coordinate as a C++ [float] and manipulates
    them through SFML's [sf::Vector2f].  The development is written once
    over the scalar operations the code uses ([Scalar]) and read at the
    instance [b32]: IEEE 754 binary32 with round-to-nearest-even, from
    the Standard Library's [SpecFloat].  This is the arithmetic the
    program runs, with its roundings, NaN, infinities and signed zeros.
    What is proved for every [Scalar] depends on no property of the
    arithmetic; everything else is proved of binary32.

    [std::pow] is a libm function whose rounding is implementation
    defined; it is a parameter [powf] of the model.  The values returned by
    [noise(rng)] are a parameter too: [noise k] is the [k]-th draw.

    The application around the flock ([FlockingApp], module [App]) is
    modelled on what it reads from its environment: the values of its
    engine [mRng] ([rng k] is the [k]-th), and the events that are waiting
    at each turn of the loop of [run].  Of the window it keeps whether it
    is open, its size, and the shapes and frames the program passes to
    it.  Arithmetic that C++ leaves undefined (a remainder modulo zero, an
    [int] that overflows) is [None]. *)

From stdpp Require Import base list.
From Stdlib Require Import ZArith Lia.
From Stdlib Require Import Floats.SpecFloat.

Set Default Proof Using "Type".

(** ** Scalars *)

(** The operations of [float] that [Flock::update] uses: the four
    arithmetic operators, [std::sqrt] (inside [sf::Vector2f::length]), the
    comparison [<], and the conversion from [int] ([static_cast<float>],
    also used to read the integral literals). *)
Class Scalar (F : Type) := {
  fadd : F -> F -> F;
  fsub : F -> F -> F;
  fmul : F -> F -> F;
  fdiv : F -> F -> F;
  fsqrt : F -> F;
  fltb : F -> F -> bool;
  of_int : Z -> F
}.

Declare Scope flt_scope.
Delimit Scope flt_scope with flt.
Infix "+" := fadd : flt_scope.
Infix "-" := fsub : flt_scope.
Infix "*" := fmul : flt_scope.
Infix "/" := fdiv : flt_scope.
Infix "<?" := fltb : flt_scope.
Notation "x >? y" := (fltb y x) (only parsing) : flt_scope.

(** A decimal literal [n / d] with [d] a power of ten and [n], [d] below
    [2^24]: both are exact in binary32 and the division rounds once, so the
    result is the [float] nearest to the decimal, as the compiler reads the
    literal. *)
Definition dec `{Scalar F} (n d : Z) : F := (of_int n / of_int d)%flt.

(** binary32: 24 bits of precision, infinities at exponent 128. *)
Definition float := spec_float.
Definition prec : Z := 24.
Definition emax : Z := 128.

#[global] Instance b32 : Scalar float := {
  fadd := SFadd prec emax;
  fsub := SFsub prec emax;
  fmul := SFmul prec emax;
  fdiv := SFdiv prec emax;
  fsqrt := SFsqrt prec emax;
  fltb := SFltb;
  of_int := fun n => binary_normalize prec emax n 0 false
}.

(** ** sf::Vector2f *)

Record Vec (F : Type) := mkVec { vx : F; vy : F }.
Arguments mkVec {F} _ _.
Arguments vx {F} _.
Arguments vy {F} _.

Section Vector2.
Context {F : Type} `{Scalar F}.
Local Open Scope flt_scope.

Definition vzero : Vec F := mkVec (of_int 0) (of_int 0).

(** [operator+], [operator-]: component-wise. *)
Definition vadd (l r : Vec F) : Vec F := mkVec (vx l + vx r) (vy l + vy r).
Definition vsub (l r : Vec F) : Vec F := mkVec (vx l - vx r) (vy l - vy r).

(** [operator*(Vector2 left, T right)] and [operator*(T left, Vector2 right)]. *)
Definition vmul (l : Vec F) (r : F) : Vec F := mkVec (vx l * r) (vy l * r).
Definition smul (l : F) (r : Vec F) : Vec F := mkVec (vx r * l) (vy r * l).

(** [operator/(Vector2 left, T right)] and [operator/=]: the two
    quotients [left.x / right] and [left.y / right].  SFML 3 states
    [assert(right != 0)] before them; the assertion exists in debug builds
    only, and what is modelled is the arithmetic, as a release build runs
    it.  A zero divisor therefore shows as the IEEE quotient (NaN or an
    infinity) here, and as an abort in a debug build. *)
Definition vdiv (l : Vec F) (r : F) : Vec F := mkVec (vx l / r) (vy l / r).

(** [length()]: [std::sqrt(x * x + y * y)] (SFML 3 does not call
    [std::hypot]). *)
Definition length (v : Vec F) : F := fsqrt (vx v * vx v + vy v * vy v).

(** [normalized()]: the vector divided by its [length()].  SFML 3 asserts
    that the vector is not the zero vector (debug builds only) and has no
    zero-length guard: the zero vector is outside the function's
    contract. *)
Definition normalized (v : Vec F) : Vec F := vdiv v (length v).
End Vector2.

Infix "+^" := vadd (at level 50, left associativity) : flt_scope.
Infix "-^" := vsub (at level 50, left associativity) : flt_scope.

(** ** Boid and Flock *)

(** [sf::Color]: four 8-bit channels. *)
Record Color := mkColor { red : Z; green : Z; blue : Z; alpha : Z }.

(** [class Boid]: [mCirc] is the drawing shape built from the radius; it
    is written by [draw] only and is left out of the record ([mCirc] below
    is the state [draw] gives it). *)
Record Boid (F : Type) := mkBoid {
  mPos : Vec F;
  mVel : Vec F;
  mRadius : F;
  mColor : Color
}.
Arguments mkBoid {F} _ _ _ _.
Arguments mPos {F} _.
Arguments mVel {F} _.
Arguments mRadius {F} _.
Arguments mColor {F} _.

(** [class Flock]: the boids in the order of [mBoids] and the destination.
    A boid's identity ([boid.get()]) is its index in [mBoids]: every
    [unique_ptr] of the vector owns an object of its own. *)
Record Flock (F : Type) := mkFlock {
  mBoids : list (Boid F);
  mDest : Vec F
}.
Arguments mkFlock {F} _ _.
Arguments mBoids {F} _.
Arguments mDest {F} _.

(** The accumulators of one pass of the outer loop. *)
Record Acc (F : Type) := mkAcc {
  separation : Vec F;
  avg_vel : Vec F;
  avg_pos : Vec F;
  neighbourhood_size : Z
}.
Arguments mkAcc {F} _ _ _ _.
Arguments separation {F} _.
Arguments avg_vel {F} _.
Arguments avg_pos {F} _.
Arguments neighbourhood_size {F} _.

Section FlockOps.
Context {F : Type} `{Scalar F}.
Local Open Scope flt_scope.

(** The constants of [Flock]. *)
Definition AVOID_FACTOR : F := dec 5 10.
Definition VISUAL_RANGE : F := of_int 20.
Definition CENTERING_FACTOR : F := dec 5 10000.
Definition MATCHING_FACTOR : F := dec 5 100.
Definition MAX_SPEED : F := of_int 6.
Definition MIN_SPEED : F := of_int 1.
Definition BIAS_VAL : F := dec 5 1000.
Definition NOISE_STRENGTH : F := dec 1 10.
(** The literal [1e-2f] of the speed limit. *)
Definition SPEED_EPS : F := dec 1 100.

(** [Boid::move]. *)
Definition move (b : Boid F) : Boid F :=
  mkBoid (mPos b +^ mVel b) (mVel b) (mRadius b) (mColor b).

(** [Flock::addBoid], [Flock::setDest], [Flock::clear]. *)
Definition addBoid (x y radius : F) (color : Color) (fl : Flock F) : Flock F :=
  mkFlock (mBoids fl ++ [mkBoid (mkVec x y) vzero radius color]) (mDest fl).

Definition setDest (newDest : Vec F) (fl : Flock F) : Flock F :=
  mkFlock (mBoids fl) newDest.

Definition clear (fl : Flock F) : Flock F := mkFlock [] (mDest fl).

Section Update.
(** [std::pow] and the draws of [noise(rng)]. *)
Variable powf : F -> F -> F.
Variable noise : nat -> F.

Definition acc0 : Acc F := mkAcc vzero vzero vzero 0.

(** Lines 93-106: what the inner loop does with one other boid. *)
Definition surface_distance (b o : Boid F) : F :=
  length (mPos o -^ mPos b) - (mRadius b + mRadius o).

Definition visit (b o : Boid F) (a : Acc F) : Acc F :=
  let toOther := mPos o -^ mPos b in
  let len := length toOther in
  let dist := len - (mRadius b + mRadius o) in
  if dist <? VISUAL_RANGE then
    mkAcc (separation a -^ vdiv toOther (len * powf (of_int 2) dist))
          (avg_vel a +^ mVel o)
          (avg_pos a +^ mPos o)
          (neighbourhood_size a + 1)%Z
  else a.

(** Lines 86-107: the inner loop over [mBoids], from index [j] on; the
    boid [i] itself is skipped. *)
Fixpoint scan (i : nat) (b : Boid F) (j : nat) (others : list (Boid F))
    (a : Acc F) : Acc F :=
  match others with
  | [] => a
  | o :: rest =>
      scan i b (S j) rest (if Nat.eqb i j then a else visit b o a)
  end.

(** Lines 109-113. *)
Definition average (a : Acc F) : Acc F :=
  if (0 <? neighbourhood_size a)%Z then
    mkAcc (separation a)
          (vdiv (avg_vel a) (of_int (neighbourhood_size a)))
          (vdiv (avg_pos a) (of_int (neighbourhood_size a)))
          (neighbourhood_size a)
  else a.

(** Lines 118-120: separation, alignment, cohesion, each added to the
    velocity the line before left. *)
Definition rules (pos vel : Vec F) (a : Acc F) : Vec F :=
  let vel := vel +^ vmul (separation a) AVOID_FACTOR in
  let vel := vel +^ smul MATCHING_FACTOR (avg_vel a -^ vel) in
  let vel := vel +^ smul CENTERING_FACTOR (avg_pos a -^ pos) in
  vel.

(** Lines 115-116 and 121. *)
Definition toDest (dest pos : Vec F) : Vec F :=
  vmul (normalized (dest -^ pos)) MAX_SPEED.

Definition bias (dest pos vel : Vec F) : Vec F :=
  smul (of_int 1 - BIAS_VAL) vel +^ smul BIAS_VAL (toDest dest pos).

(** Lines 124-125: two draws, the first for [x]. *)
Definition jitter (k : nat) : Vec F :=
  mkVec (noise k * NOISE_STRENGTH) (noise (S k) * NOISE_STRENGTH).

(** Lines 128-136. *)
Definition speed_limit (vel : Vec F) : Vec F :=
  let speed := length vel in
  if speed >? MAX_SPEED then vmul vel (MAX_SPEED / (speed + SPEED_EPS))
  else if speed <? MIN_SPEED then vmul vel (MIN_SPEED / (speed + SPEED_EPS))
  else vel.

(** The velocity before the speed limit, and the body of the outer
    loop (lines 76-139) for the boid [b] at index [i] of [bs]. *)
Definition steer (dest : Vec F) (k i : nat) (bs : list (Boid F))
    (b : Boid F) : Vec F :=
  let a := average (scan i b 0 bs acc0) in
  bias dest (mPos b) (rules (mPos b) (mVel b) a) +^ jitter k.

Definition update_boid (dest : Vec F) (k i : nat) (bs : list (Boid F))
    (b : Boid F) : Boid F :=
  move (mkBoid (mPos b) (speed_limit (steer dest k i bs b))
               (mRadius b) (mColor b)).

(** One pass of the outer loop: the boid at [i] is replaced in place,
    so the boids after it read its new state. *)
Definition step (dest : Vec F) (st : nat * list (Boid F)) (i : nat)
    : nat * list (Boid F) :=
  match st.2 !! i with
  | Some b => ((st.1 + 2)%nat, <[i := update_boid dest st.1 i st.2 b]> st.2)
  | None => st
  end.

(** The first [m] passes of the outer loop, from the draw counter [k]. *)
Definition run (dest : Vec F) (k : nat) (bs : list (Boid F)) (m : nat)
    : nat * list (Boid F) :=
  foldl (step dest) (k, bs) (seq 0 m).

(** [Flock::update]: one pass per boid, in the order of [mBoids]. *)
Definition update (k : nat) (fl : Flock F) : nat * Flock F :=
  let st := run (mDest fl) k (mBoids fl) (List.length (mBoids fl)) in
  (st.1, mkFlock st.2 (mDest fl)).
(** The test of line 100, on the two boids as the inner loop reads them. *)
Definition near (b o : Boid F) : bool :=
  surface_distance b o <? VISUAL_RANGE.

(** The distance between the centres exceeds the visual range plus the
    two radii, in the arithmetic of the program. *)
Definition far_apart (b o : Boid F) : Prop :=
  (VISUAL_RANGE + (mRadius b + mRadius o) <? length (mPos o -^ mPos b)) = true.

(** The boids the inner loop does not skip: all of [bs] (whose first
    element has index [j]) but the one at index [i]. *)
Fixpoint others (i j : nat) (bs : list (Boid F)) : list (Boid F) :=
  match bs with
  | [] => []
  | o :: rest =>
      if Nat.eqb i j then others i (S j) rest else o :: others i (S j) rest
  end.

(** ** The integration of the velocity, in the specification's words *)

(** Section 4.2, step 5: six updates of the velocity, in this order.  The
    first three are additions to the velocity in place, the fourth
    replaces it by a blend with [destination_velocity], the fifth adds the
    jitter and the last limits the speed. *)
Definition clamp_spec (velocity : Vec F) : Vec F :=
  if length velocity >? MAX_SPEED then
    vmul velocity (MAX_SPEED / (length velocity + SPEED_EPS))
  else if length velocity <? MIN_SPEED then
    vmul velocity (MIN_SPEED / (length velocity + SPEED_EPS))
  else velocity.

Definition integration_order
    (position separation avg_velocity avg_position
     destination_velocity jitter : Vec F) : list (Vec F -> Vec F) :=
  [ fun velocity => velocity +^ vmul separation AVOID_FACTOR;
    fun velocity => velocity +^ smul MATCHING_FACTOR (avg_velocity -^ velocity);
    fun velocity => velocity +^ smul CENTERING_FACTOR (avg_position -^ position);
    fun velocity => smul (of_int 1 - BIAS_VAL) velocity
                    +^ smul BIAS_VAL destination_velocity;
    fun velocity => velocity +^ jitter;
    clamp_spec ].

Definition integrate_spec
    (position separation avg_velocity avg_position
     destination_velocity jitter velocity : Vec F) : Vec F :=
  foldl (fun v f => f v) velocity
        (integration_order position separation avg_velocity avg_position
                           destination_velocity jitter).
End Update.
End FlockOps.

(** ** binary32 values *)

Definition is_nan (x : float) : bool :=
  match x with S754_nan => true | _ => false end.

(** Zero or a finite non-zero value: neither NaN nor an infinity. *)
Definition finite (x : float) : bool :=
  match x with S754_zero _ | S754_finite _ _ _ => true | _ => false end.

(** A finite value that is not zero. *)
Definition regular (x : float) : bool :=
  match x with S754_finite _ _ _ => true | _ => false end.

Definition nan_vec : Vec float := mkVec S754_nan S754_nan.

Definition finite_vec (v : Vec float) : bool := finite (vx v) && finite (vy v).

(** The sign of a value that is not NaN. *)
Definition has_sign (s : bool) (x : float) : Prop :=
  match x with
  | S754_zero s' | S754_infinity s' | S754_finite s' _ _ => s' = s
  | S754_nan => False
  end.

(** ** Flocks as the application builds them *)

Definition white : Color := mkColor 255 255 255 255.

(** A [Flock] as constructed: no boid, and [mDest] value-initialised to
    [(0, 0)]. *)
Definition new_flock {F : Type} `{Scalar F} : Flock F := mkFlock [] vzero.

(** Two boids added at the same pixel. *)
Definition coincident_flock : Flock float :=
  addBoid (of_int 100) (of_int 100) (of_int 2) white
    (addBoid (of_int 100) (of_int 100) (of_int 2) white new_flock).

(** One boid added at the pixel [(0, 0)], where the destination is until
    the pointer moves. *)
Definition corner_flock : Flock float :=
  addBoid (of_int 0) (of_int 0) (of_int 2) white new_flock.

(** One boid alone at [(100, 0)], as [addBoid] creates it. *)
Definition lone_boid {F : Type} `{Scalar F} : Boid F :=
  mkBoid (mkVec (of_int 100) (of_int 0)) vzero (of_int 2) white.

(** One boid added at [(0, 0)], the pointer then moved to [(100, 0)]. *)
Definition pointer_flock {F : Type} `{Scalar F} : Flock F :=
  setDest (mkVec (of_int 100) (of_int 0))
    (addBoid (of_int 0) (of_int 0) (of_int 2) white new_flock).

(** A generator whose every draw is 0. *)
Definition no_noise {F : Type} `{Scalar F} : nat -> F := fun _ => of_int 0.

(** Two boids of radius 2 whose centres are 30 apart. *)
Definition west_boid {F : Type} `{Scalar F} : Boid F :=
  mkBoid (mkVec (of_int 0) (of_int 0)) (mkVec (of_int 1) (of_int 0))
         (of_int 2) white.
Definition east_boid {F : Type} `{Scalar F} : Boid F :=
  mkBoid (mkVec (of_int 30) (of_int 0)) (mkVec (of_int 0) (of_int 1))
         (of_int 2) white.

(** A generator that agrees with [no_noise] on its first two draws only. *)
Definition late_noise : nat -> float :=
  fun j => if (j <? 2)%nat then of_int 0 else of_int 1.

(** ** binary32 as integers *)

Section Binary32Values.
Local Open Scope Z_scope.

(** A [float] of the program is a valid binary32 value: its significand
    has at most 24 bits and sits at the canonical exponent, between
    [emin = -149] and [emax - prec = 104].  [spec_float] also holds
    triples that no [float] has. *)
Definition valid (x : float) : bool := valid_binary prec emax x.

Definition not_nan (x : float) : bool := negb (is_nan x).

(** The magnitude [m * 2^e] in units of [2^-149], the smallest positive
    binary32 value: an integer for every valid float. *)
Definition mag (m : positive) (e : Z) : Z := Zpos m * 2 ^ (e + 149).

(** One more than every finite magnitude: [2^128] in the same unit. *)
Definition big : Z := 2 ^ 277.

(** The value of a float in that unit; the infinities stand at [big]. *)
Definition ext (x : float) : Z :=
  match x with
  | S754_zero _ | S754_nan => 0
  | S754_infinity s => cond_Zopp s big
  | S754_finite s m e => cond_Zopp s (Zpos m * 2 ^ (e + 149))
  end.

(** Rounding to nearest, ties to even, on the integers [N >= 0]: the
    [shift_of N] low bits are dropped, and the quotient is incremented
    when the dropped part is above the half, or is the half and the
    quotient is odd; results from [big] on are the infinity. *)
Definition shift_of (N : Z) : Z := Z.max 0 (Z.log2 N + 1 - 24).

Definition round_up (N k : Z) : bool :=
  let r := N mod 2 ^ k in
  (2 ^ k <? 2 * r) || ((2 ^ k =? 2 * r) && Z.odd (N / 2 ^ k)).

Definition rnd_raw (N : Z) : Z :=
  (N / 2 ^ shift_of N + (if round_up N (shift_of N) then 1 else 0))
  * 2 ^ shift_of N.

Definition rnd_pos (N : Z) : Z :=
  let k := shift_of N in
  Z.min ((N / 2 ^ k + (if round_up N k then 1 else 0)) * 2 ^ k) big.

(** Rounding on all integers: odd in its argument. *)
Definition rnd (N : Z) : Z := if N <? 0 then - rnd_pos (- N) else rnd_pos N.

(** [x] has the sign [s] and the magnitude [v], or is the infinity of
    that sign when [v] is out of range. *)
Definition rounds_to (s : bool) (v : Z) (x : float) : Prop :=
  (big <= v /\ x = S754_infinity s)
  \/ (exists m e, x = S754_finite s m e /\ bounded prec emax m e = true
                 /\ Zpos m * 2 ^ (e + 149) = v /\ v < big).

(** VISUAL_RANGE as a binary32 value: [20 = 10485760 * 2^-19]. *)
Definition c20 : float := S754_finite false 10485760 (-19).
End Binary32Values.

(** ** Drawing *)

(** The state [Boid::draw] gives [mCirc] before it draws it: the radius
    is the one the constructor passed ([mCirc(radius)], never written
    again), the position and the fill colour are set by every call.  The
    position of a shape is where its local origin goes, which for a
    [sf::CircleShape] left at its default origin is the top-left corner of
    the square around the circle. *)
Record CircleShape (F : Type) := mkCircle {
  getPosition : Vec F;
  getRadius : F;
  getFillColor : Color
}.
Arguments mkCircle {F} _ _ _.
Arguments getPosition {F} _.
Arguments getRadius {F} _.
Arguments getFillColor {F} _.

(** [sf::RenderWindow], as far as the program reads and writes it:
    whether it is open, its size in pixels ([getSize()], two
    [unsigned int]), the shapes passed to [draw] since the last [clear],
    and the frames passed to [display()], oldest first.  The last two
    record the calls the program makes. *)
Record RenderWindow (F : Type) := mkWindow {
  isOpen : bool;
  getSize : Z * Z;
  drawn : list (CircleShape F);
  displayed : list (list (CircleShape F))
}.
Arguments mkWindow {F} _ _ _ _.
Arguments isOpen {F} _.
Arguments getSize {F} _.
Arguments drawn {F} _.
Arguments displayed {F} _.

(** [class FlockingApp].  [mRng] is the number of values taken from the
    engine so far; [mFlockSize] is an [unsigned int]. *)
Record FlockingApp (F : Type) := mkApp {
  mWindow : RenderWindow F;
  mFlock : Flock F;
  mRng : nat;
  mFlockSize : Z
}.
Arguments mkApp {F} _ _ _ _.
Arguments mWindow {F} _.
Arguments mFlock {F} _.
Arguments mRng {F} _.
Arguments mFlockSize {F} _.

(** The events [handleEvents] tells apart, [sf::Event::Resized], which
    it ignores but the window does not, and all the others. *)
Inductive Scancode := Scan_R | Scan_other.

Inductive Event :=
  | Closed
  | Resized (size : Z * Z)
  | MouseMoved (position : Z * Z)
  | KeyPressed (scancode : Scancode)
  | OtherEvent.

#[global] Instance Scancode_eq_dec : EqDecision Scancode.
Proof. solve_decision. Defined.

#[global] Instance Event_eq_dec : EqDecision Event.
Proof. solve_decision. Defined.

(** How a run of the program ends on a finite input: [run()] returned,
    or the loop is still turning when the input is used up, or the
    program has left defined behaviour. *)
Inductive Outcome (A : Type) :=
  | Exited (a : A)
  | Running (a : A)
  | Undefined.
Arguments Exited {A} _.
Arguments Running {A} _.
Arguments Undefined {A}.

(** The integer conversions of [createRandomFlock]: arithmetic in
    [uint64_t], the narrowing of its result to [int] (modulo [2^32], two's
    complement), the comparison of an [int] with an [unsigned int], and
    the narrowing of an [int] to the [std::uint8_t] of [sf::Color]. *)
Definition to_uint64 (z : Z) : Z := z mod 2 ^ 64.
Definition to_int (z : Z) : Z := (z + 2 ^ 31) mod 2 ^ 32 - 2 ^ 31.
Definition to_unsigned (z : Z) : Z := z mod 2 ^ 32.
Definition to_uint8 (z : Z) : Z := z mod 2 ^ 8.
Definition INT_MAX : Z := 2 ^ 31 - 1.

Section Drawing.
Context {F : Type} `{Scalar F}.
Local Open Scope flt_scope.

(** [sf::RenderWindow]: [close], [clear], [draw], [display]. *)
Definition close (w : RenderWindow F) : RenderWindow F :=
  mkWindow false (getSize w) (drawn w) (displayed w).

Definition Window_clear (w : RenderWindow F) : RenderWindow F :=
  mkWindow (isOpen w) (getSize w) [] (displayed w).

Definition Window_draw (shape : CircleShape F) (w : RenderWindow F)
    : RenderWindow F :=
  mkWindow (isOpen w) (getSize w) (drawn w ++ [shape]) (displayed w).

Definition display (w : RenderWindow F) : RenderWindow F :=
  mkWindow (isOpen w) (getSize w) (drawn w) (displayed w ++ [drawn w]).

(** [mCirc] as lines 42-43 of [Boid::draw] set it. *)
Definition mCirc (b : Boid F) : CircleShape F :=
  mkCircle (mPos b -^ mkVec (mRadius b) (mRadius b)) (mRadius b) (mColor b).

(** [Boid::draw] (lines 40-45). *)
Definition Boid_draw (b : Boid F) (window : RenderWindow F) : RenderWindow F :=
  Window_draw (mCirc b) window.

(** [Flock::draw] (lines 147-153). *)
Definition Flock_draw (fl : Flock F) (window : RenderWindow F)
    : RenderWindow F :=
  foldl (fun w b => Boid_draw b w) window (mBoids fl).
End Drawing.

(** ** FlockingApp *)

(** The position of a [MouseMoved] event as [handleEvents] passes it to
    [setDest]: [sf::Vector2f{position}] converts the two [int]s. *)
Definition Vector2f {F : Type} `{Scalar F} (position : Z * Z) : Vec F :=
  mkVec (of_int position.1) (of_int position.2).

Module App.
Section App.
Context {F : Type} `{Scalar F}.
(** [std::pow], the draws of [noise(rng)] in [Flock::update], and the
    values [mRng()] returns, in the order they are taken. *)
Variable powf : F -> F -> F.
Variable noise : nat -> F.
Variable rng : nat -> Z.

(** The lambda [rand] of line 273 on the engine's value [r]:
    [r % (max - min) + min] in [uint64_t].  A zero divisor is undefined
    behaviour. *)
Definition rand (r : Z) (min max : Z) : option Z :=
  let range := to_uint64 (max - min) in
  if (range =? 0)%Z then None else Some (to_uint64 (r mod range + min)).

(** Lines 273-281, the body of the loop: six values of the engine, in
    the order of the statements, and one [addBoid], whose [float]
    parameters convert the [int]s. *)
Definition spawn (app : FlockingApp F) : option (FlockingApp F) :=
  let k := mRng app in
  x ← rand (rng k) 0 (getSize (mWindow app)).1;
  y ← rand (rng (k + 1)) 0 (getSize (mWindow app)).2;
  radius ← rand (rng (k + 2)) 2 8;
  r ← rand (rng (k + 3)) 0 255;
  g ← rand (rng (k + 4)) 0 255;
  b ← rand (rng (k + 5)) 0 255;
  Some (mkApp (mWindow app)
              (addBoid (of_int (to_int x)) (of_int (to_int y))
                       (of_int (to_int radius))
                       (mkColor (to_uint8 (to_int r)) (to_uint8 (to_int g))
                                (to_uint8 (to_int b)) 255)
                       (mFlock app))
              (k + 6) (mFlockSize app)).

(** The loop [for (int i = 0; i < n; i++)] from the counter [i] on: the
    test converts [i] to [unsigned int], and [i++] at [INT_MAX] is
    undefined.  [fuel] bounds the number of passes. *)
Fixpoint createRandomFlock_from (fuel : nat) (i n : Z) (app : FlockingApp F)
    : option (FlockingApp F) :=
  if (to_unsigned i <? n)%Z then
    match fuel with
    | O => None
    | S fuel =>
        app ← spawn app;
        if (i <? INT_MAX)%Z then createRandomFlock_from fuel (i + 1) n app
        else None
    end
  else Some app.

(** [createRandomFlock(n)].  The loop makes at most [n] passes, so the
    fuel is never used up before the loop ends or leaves defined
    behaviour. *)
Definition createRandomFlock (n : Z) (app : FlockingApp F)
    : option (FlockingApp F) :=
  createRandomFlock_from (Z.to_nat n) 0 n app.

(** The constructor: the window, open, taken to have the size asked
    for; a new [Flock]; [flockSize] boids.  ([setFramerateLimit] paces the
    loop and changes no value.) *)
Definition make (windowWidth windowHeight flockSize : Z)
    : option (FlockingApp F) :=
  createRandomFlock flockSize
    (mkApp (mkWindow true (windowWidth, windowHeight) [] []) new_flock
           0 flockSize).

(** What [pollEvent()] does to the window before it returns an event: a
    [Resized] event carries the new size, which [getSize()] returns from
    then on. *)
Definition filterEvent (event : Event) (w : RenderWindow F) : RenderWindow F :=
  match event with
  | Resized size => mkWindow (isOpen w) size (drawn w) (displayed w)
  | _ => w
  end.

(** [handleEvents] (lines 241-262) on the events that are waiting, the
    oldest first.  [pollEvent()] returns no event once the window is
    closed, so the loop ends there and leaves the later ones. *)
Fixpoint handleEvents (queue : list Event) (app : FlockingApp F)
    : option (FlockingApp F) :=
  match queue with
  | [] => Some app
  | event :: queue =>
      if isOpen (mWindow app) then
        let w := filterEvent event (mWindow app) in
        match event with
        | Closed =>
            handleEvents queue
              (mkApp (close w) (mFlock app) (mRng app) (mFlockSize app))
        | MouseMoved position =>
            handleEvents queue
              (mkApp w (setDest (Vector2f position) (mFlock app))
                     (mRng app) (mFlockSize app))
        | KeyPressed Scan_R =>
            app ← createRandomFlock (mFlockSize app)
                    (mkApp w (clear (mFlock app)) (mRng app) (mFlockSize app));
            handleEvents queue app
        | _ =>
            handleEvents queue
              (mkApp w (mFlock app) (mRng app) (mFlockSize app))
        end
      else Some app
  end.

(** One turn of the loop of [run] after its events are handled (lines
    224-228): the update, from the draw counter [k] of its generator, and
    the frame. *)
Definition frame (st : nat * FlockingApp F) : nat * FlockingApp F :=
  let up := update powf noise st.1 (mFlock st.2) in
  (up.1,
   mkApp (display (Flock_draw up.2 (Window_clear (mWindow st.2))))
         up.2 (mRng st.2) (mFlockSize st.2)).

(** [run] (lines 218-230).  [input] holds, for each turn of the loop,
    the events that are waiting when [handleEvents] is called. *)
Fixpoint run (input : list (list Event)) (st : nat * FlockingApp F)
    : Outcome (nat * FlockingApp F) :=
  if isOpen (mWindow st.2) then
    match input with
    | [] => Running st
    | queue :: input =>
        match handleEvents queue st.2 with
        | Some app => run input (frame (st.1, app))
        | None => Undefined
        end
    end
  else Exited st.

(** [main]: a window of 1524 by 1024 and 300 boids. *)
Definition main (input : list (list Event)) : Outcome (nat * FlockingApp F) :=
  match make 1524 1024 300 with
  | Some app => run input (0, app)
  | None => Undefined
  end.
End App.
End App.

(** ** What the statements about the application speak of *)

(** A boid as [createRandomFlock] makes one in a window [w] pixels wide
    and [h] high: at rest at an integer pixel below [(w, h)], with an
    integer radius from 2 to 7 and an opaque colour whose channels are
    from 0 to 254.  The coordinates have been through an [int]. *)
Definition born {F : Type} `{Scalar F} (w h : Z) (b : Boid F) : Prop :=
  exists x y radius r g bl : Z,
    b = mkBoid (mkVec (of_int (to_int x)) (of_int (to_int y))) vzero
               (of_int radius) (mkColor r g bl 255)
    /\ (0 <= x < w)%Z /\ (0 <= y < h)%Z /\ (2 <= radius <= 7)%Z
    /\ (0 <= r <= 254)%Z /\ (0 <= g <= 254)%Z /\ (0 <= bl <= 254)%Z.

(** Values an engine could return, for the examples. *)
Definition sample_rng (j : nat) : Z :=
  ((Z.of_nat j * 1103515245 + 12345) mod 2 ^ 32)%Z.

(** The pointer position an event carries, if it is a mouse move. *)
Definition pointer (event : Event) : option (Z * Z) :=
  match event with MouseMoved position => Some position | _ => None end.

(** A vector with NaN in a component. *)
Definition has_nan (v : Vec float) : bool := is_nan (vx v) || is_nan (vy v).

(** ** Inputs for the examples *)

(** The application as its constructor has it before it creates the
    boids, in [main]: the window of 1524 by 1024, open, and no boid. *)
Definition blank_app {F : Type} `{Scalar F} : FlockingApp F :=
  mkApp (mkWindow true (1524, 1024)%Z [] []) new_flock 0 300%Z.

(** The same with a window that has no width. *)
Definition flat_app {F : Type} `{Scalar F} : FlockingApp F :=
  mkApp (mkWindow true (0, 1024)%Z [] []) new_flock 0 300%Z.

(** The pointer moves twice, a key that is not [R] is pressed and the
    window is resized. *)
Definition sample_queue : list Event :=
  [MouseMoved (10, 20)%Z; KeyPressed Scan_other; Resized (800, 600)%Z;
   MouseMoved (30, 40)%Z].

(** A function in the place of [std::pow] and an engine that repeats
    itself every six values, so that every boid is made on one pixel. *)
Definition sample_pow : float -> float -> float := fun _ _ => of_int 1.

Definition stuck_rng (j : nat) : Z := (Z.of_nat (j mod 6) * 100 + 7)%Z.

(** A boid whose position is NaN, and the application with this boid
    alone. *)
Definition nan_boid : Boid float := mkBoid nan_vec nan_vec (of_int 2) white.

Definition nan_app : FlockingApp float :=
  mkApp (mkWindow true (1524, 1024)%Z [] []) (mkFlock [nan_boid] vzero) 0 1%Z.

(** The application with one boid at the pixel (100, 50). *)
Definition one_boid_app : FlockingApp float :=
  mkApp (mkWindow true (1524, 1024)%Z [] [])
        (addBoid (of_int 100) (of_int 50) (of_int 2) white new_flock) 0 1%Z.

(** Two boids far from each other, with the pointer at the origin. *)
Definition two_boids {F : Type} `{Scalar F} : Flock F :=
  mkFlock [west_boid; east_boid] vzero.

(** The same two boids with the pointer at [(100, 0)]. *)
Definition apart_flock : Flock float :=
  mkFlock [west_boid; east_boid] (mkVec (of_int 100) (of_int 0)).

(** The boid of [pointer_flock] after one [update()] without noise: its
    velocity and its position are (0.75, 0). *)
Definition pointer_boid_after : Boid float :=
  mkBoid (mkVec (S754_finite false 12582912 (-24)) (S754_zero false))
         (mkVec (S754_finite false 12582912 (-24)) (S754_zero false))
         (of_int 2) white.



(** Two boids of radius 2 at rest, at (0, 0) and at (24.5, 0), added in
    this order; the pointer at (100, 0). *)
Definition approach_west : Boid float :=
  mkBoid (mkVec (of_int 0) (of_int 0)) vzero (of_int 2) white.
Definition approach_east : Boid float :=
  mkBoid (mkVec (dec 245 10) (of_int 0)) vzero (of_int 2) white.
Definition approach_flock : Flock float :=
  setDest (mkVec (of_int 100) (of_int 0))
    (addBoid (dec 245 10) (of_int 0) (of_int 2) white
       (addBoid (of_int 0) (of_int 0) (of_int 2) white new_flock)).

(** A boid of radius 2 whose centre is 3 away from [west_boid]. *)
Definition close_boid : Boid float :=
  mkBoid (mkVec (of_int 3) (of_int 0)) vzero (of_int 2) white.
(** ** The outer loop *)

Section Passes.
Context {F : Type} `{Scalar F}.
Variable powf : F -> F -> F.
Variable noise : nat -> F.
Variable dest : Vec F.

Local Abbreviation run' := (run powf noise dest).
Local Abbreviation step' := (step powf noise dest).
Local Abbreviation update_boid' := (update_boid powf noise dest).

Lemma run_S k bs m : run' k bs (S m) = step' (run' k bs m) m.
Proof. unfold run. by rewrite seq_S, foldl_snoc. Qed.

Lemma step_length st i : List.length (step' st i).2 = List.length st.2.
Proof.
  unfold step. destruct (st.2 !! i); simpl; [|done].
  by rewrite length_insert.
Qed.

Lemma run_length k bs m : List.length (run' k bs m).2 = List.length bs.
Proof.
  induction m as [|m IH]; [done|]. by rewrite run_S, step_length.
Qed.

(** Each pass takes two draws. *)
Lemma run_counter k bs m :
  m <= List.length bs -> (run' k bs m).1 = k + 2 * m.
Proof.
  induction m as [|m IH]; intros Hm; [simpl; lia|].
  rewrite run_S. unfold step.
  destruct ((run' k bs m).2 !! m) eqn:E; simpl.
  - rewrite IH by lia. lia.
  - apply lookup_ge_None in E. rewrite run_length in E. lia.
Qed.

(** A pass writes its own boid only. *)
Lemma step_lookup_ne st i j : i ≠ j -> (step' st i).2 !! j = st.2 !! j.
Proof.
  intros Hij. unfold step. destruct (st.2 !! i); simpl; [|done].
  by rewrite list_lookup_insert_ne.
Qed.

Lemma run_lookup_ge k bs m i : m <= i -> (run' k bs m).2 !! i = bs !! i.
Proof.
  induction m as [|m IH]; intros Hm; [done|].
  rewrite run_S, step_lookup_ne by lia. apply IH. lia.
Qed.

Lemma run_lookup_lt k bs m i :
  i < m -> (run' k bs m).2 !! i = (run' k bs (S i)).2 !! i.
Proof.
  induction m as [|m IH]; intros Hm; [lia|].
  destruct (decide (i = m)) as [->|Hne]; [done|].
  rewrite run_S, step_lookup_ne by lia. apply IH. lia.
Qed.

Lemma run_lookup_pass k bs i b :
  bs !! i = Some b ->
  (run' k bs (S i)).2 !! i
  = Some (update_boid' (k + 2 * i) i (run' k bs i).2 b).
Proof.
  intros Hb. rewrite run_S. unfold step.
  assert (Hi : i < List.length bs) by (by eapply lookup_lt_Some).
  rewrite run_lookup_ge, Hb by lia. simpl.
  rewrite list_lookup_insert_eq by (rewrite run_length; lia).
  by rewrite run_counter by lia.
Qed.
End Passes.

Section UpdateFacts.
Context {F : Type} `{Scalar F}.
Variable powf : F -> F -> F.
Variable noise : nat -> F.

Lemma update_dest k fl : mDest (update powf noise k fl).2 = mDest fl.
Proof. done. Qed.

Lemma update_length k fl :
  List.length (mBoids (update powf noise k fl).2) = List.length (mBoids fl).
Proof. apply run_length. Qed.

Lemma update_counter k fl :
  (update powf noise k fl).1 = k + 2 * List.length (mBoids fl).
Proof. apply run_counter. lia. Qed.

(** What [update] leaves at index [i]: the body of the loop applied to
    the boid, with the boids before it already updated and moved. *)
Lemma update_lookup k fl i b :
  mBoids fl !! i = Some b ->
  mBoids (update powf noise k fl).2 !! i
  = Some (update_boid powf noise (mDest fl) (k + 2 * i) i
            (run powf noise (mDest fl) k (mBoids fl) i).2 b).
Proof.
  intros Hb. simpl.
  assert (Hi : i < List.length (mBoids fl)) by (by eapply lookup_lt_Some).
  rewrite run_lookup_lt by done. by apply run_lookup_pass.
Qed.
End UpdateFacts.

(** ** The inner loop: who counts as a neighbour *)

Section Neighbours.
Context {F : Type} `{Scalar F}.
Variable powf : F -> F -> F.
Local Open Scope flt_scope.

Lemma visit_near b o a :
  near b o = true ->
  visit powf b o a
  = mkAcc (separation a -^
             vdiv (mPos o -^ mPos b)
                  (length (mPos o -^ mPos b)
                   * powf (of_int 2) (surface_distance b o)))
          (avg_vel a +^ mVel o) (avg_pos a +^ mPos o)
          (neighbourhood_size a + 1)%Z.
Proof.
  unfold near, visit, surface_distance. intros Hn. by rewrite Hn.
Qed.

Lemma visit_far b o a : near b o = false -> visit powf b o a = a.
Proof.
  unfold near, visit, surface_distance. intros Hn. by rewrite Hn.
Qed.

Lemma visit_size b o a :
  neighbourhood_size (visit powf b o a)
  = (neighbourhood_size a + (if near b o then 1 else 0))%Z.
Proof.
  destruct (near b o) eqn:Hn.
  - by rewrite visit_near.
  - rewrite visit_far by done. lia.
Qed.

Lemma scan_others i b j bs a :
  scan powf i b j bs a = foldl (fun a o => visit powf b o a) a (others i j bs).
Proof.
  revert j a. induction bs as [|o rest IH]; intros j a; simpl; [done|].
  rewrite IH. by destruct (Nat.eqb i j).
Qed.

Lemma foldl_visit_size b os a :
  neighbourhood_size (foldl (fun a o => visit powf b o a) a os)
  = (neighbourhood_size a
     + Z.of_nat (List.length (List.filter (near b) os)))%Z.
Proof.
  revert a. induction os as [|o os IH]; intros a; simpl; [lia|].
  rewrite IH, visit_size. destruct (near b o); simpl; lia.
Qed.

Lemma foldl_visit_far b os a :
  Forall (fun o => near b o = false) os ->
  foldl (fun a o => visit powf b o a) a os = a.
Proof.
  induction 1 as [|o os Ho _ IH]; simpl; [done|].
  by rewrite visit_far.
Qed.

End Neighbours.

(** ** Determinism *)

Section Determinism.
Context {F : Type} `{Scalar F}.
Variable powf : F -> F -> F.

Lemma update_boid_ext noise1 noise2 dest k i bs b :
  noise1 k = noise2 k -> noise1 (S k) = noise2 (S k) ->
  update_boid powf noise1 dest k i bs b = update_boid powf noise2 dest k i bs b.
Proof.
  intros H0 H1. unfold update_boid, steer, jitter. by rewrite H0, H1.
Qed.

(** The passes read the draws [k], ..., [k + 2 m - 1] and no other. *)
Lemma run_ext noise1 noise2 dest k bs m :
  m <= List.length bs ->
  (forall j, k <= j < k + 2 * m -> noise1 j = noise2 j) ->
  run powf noise1 dest k bs m = run powf noise2 dest k bs m.
Proof.
  induction m as [|m IH]; intros Hm Hn; [done|].
  rewrite !run_S, <- IH by (try lia; intros; apply Hn; lia).
  unfold step. destruct ((run powf noise1 dest k bs m).2 !! m); [|done].
  rewrite run_counter by lia.
  f_equal. f_equal. apply update_boid_ext; apply Hn; lia.
Qed.

(** C7. [Flock::update] is a function of the flock (agents and
    destination) and of the draws it takes: two runs from the same flock
    and draw counter whose draws agree on the [2 n] values read, for [n]
    boids, end in the same flock, with the same velocities and positions,
    and at the same draw counter. *)
Theorem update_deterministic noise1 noise2 k (fl : Flock F) :
  (forall j, k <= j < k + 2 * List.length (mBoids fl) -> noise1 j = noise2 j) ->
  update powf noise1 k fl = update powf noise2 k fl.
Proof.
  intros Hn. unfold update. by rewrite (run_ext noise1 noise2).
Qed.
End Determinism.

Lemma update_deterministic_witness :
  update sample_pow no_noise 0 pointer_flock
  = update sample_pow late_noise 0 pointer_flock.
Proof.
  apply update_deterministic. intros j Hj. simpl in Hj.
  destruct j as [|[|j]]; [reflexivity|reflexivity|lia].
Defined.

(** ** Managing the flock *)

Section Management.
Context {F : Type} `{Scalar F}.
Variable powf : F -> F -> F.
Variable noise : nat -> F.

(** C8. After [clear()] the flock has no boid, and [update()] on it does
    nothing: it returns (the model is a total function), takes no draw and
    leaves the flock as [clear()] left it. *)
Theorem clear_then_update k (fl : Flock F) :
  mBoids (clear fl) = []
  /\ update powf noise k (clear fl) = (k, clear fl).
Proof. split; reflexivity. Qed.

(** C9. [addBoid(x, y, radius, color)] returns for every input (a total
    function) and appends exactly one boid, after the boids already there,
    which it leaves as they are: the new boid is at [(x, y)], has the
    radius and the colour given and the velocity [(0, 0)]. *)
Theorem addBoid_appends (x y radius : F) color (fl : Flock F) :
  exists b,
    mBoids (addBoid x y radius color fl) = mBoids fl ++ [b]
    /\ List.length (mBoids (addBoid x y radius color fl))
       = S (List.length (mBoids fl))
    /\ mPos b = mkVec x y
    /\ mRadius b = radius
    /\ mVel b = mkVec (of_int 0) (of_int 0)
    /\ mColor b = color.
Proof.
  eexists. split; [reflexivity|]. split; [|done].
  simpl. rewrite length_app. simpl. lia.
Qed.

(** C10. [clear()] writes [mBoids] only: the destination is the one set
    before, and the first [update()] after a boid is added steers that
    boid towards it. *)
Theorem clear_keeps_dest k (fl : Flock F) (x y radius : F) color :
  mDest (clear fl) = mDest fl
  /\ (forall d, mDest (clear (setDest d fl)) = d)
  /\ let b := mkBoid (mkVec x y) vzero radius color in
     update powf noise k (addBoid x y radius color (clear fl))
     = (k + 2, mkFlock [update_boid powf noise (mDest fl) k 0 [b] b] (mDest fl))
     /\ mVel (update_boid powf noise (mDest fl) k 0 [b] b)
        = speed_limit
            (bias (mDest fl) (mPos b) (rules (mPos b) (mVel b) acc0)
             +^ jitter noise k)%flt.
Proof. repeat split. Qed.
End Management.

(** ** What an update leaves alone *)

Section Frame.
Context {F : Type} `{Scalar F}.
Variable powf : F -> F -> F.
Variable noise : nat -> F.

(** X1. [update()] neither adds nor removes a boid and keeps their order;
    it writes positions and velocities only, so every boid keeps its
    radius and its colour; it leaves the destination as it was and takes
    exactly two draws per boid. *)
Theorem update_keeps_population k (fl : Flock F) :
  List.length (mBoids (update powf noise k fl).2) = List.length (mBoids fl)
  /\ mDest (update powf noise k fl).2 = mDest fl
  /\ (update powf noise k fl).1 = k + 2 * List.length (mBoids fl)
  /\ forall i b,
       mBoids fl !! i = Some b ->
       exists b',
         mBoids (update powf noise k fl).2 !! i = Some b'
         /\ mRadius b' = mRadius b /\ mColor b' = mColor b.
Proof.
  split; [apply run_length|]. split; [done|].
  split; [apply run_counter; lia|].
  intros i b Hb. eexists. split; [by apply update_lookup|done].
Qed.

(** X2. [setDest] replaces the destination and nothing else, and the next
    [update()] steers every boid with the new one. *)
Theorem setDest_next_update k (fl : Flock F) (d : Vec F) :
  mBoids (setDest d fl) = mBoids fl
  /\ mDest (setDest d fl) = d
  /\ forall i b,
       mBoids fl !! i = Some b ->
       mBoids (update powf noise k (setDest d fl)).2 !! i
       = Some (update_boid powf noise d (k + 2 * i) i
                 (run powf noise d k (mBoids fl) i).2 b).
Proof.
  split; [done|]. split; [done|].
  intros i b Hb. by rewrite (update_lookup powf noise k (setDest d fl) i b).
Qed.
End Frame.

(** ** The order of the integration *)

Section Integration.
Context {F : Type} `{Scalar F}.
Variable powf : F -> F -> F.
Variable noise : nat -> F.

Lemma clamp_spec_speed_limit (v : Vec F) : clamp_spec v = speed_limit v.
Proof. reflexivity. Qed.

Lemma update_boid_integrates dest k i bs (b : Boid F) :
  let a := average (scan powf i b 0 bs acc0) in
  let b' := update_boid powf noise dest k i bs b in
  mVel b'
  = integrate_spec (mPos b) (separation a) (avg_vel a) (avg_pos a)
      (vmul (normalized (dest -^ mPos b)%flt) MAX_SPEED)
      (jitter noise k) (mVel b)
  /\ mPos b' = (mPos b +^ mVel b')%flt
  /\ mRadius b' = mRadius b /\ mColor b' = mColor b.
Proof. repeat split. Qed.

(** C6. For the boid at every index [i] of the flock, [update()] leaves
    the velocity that the six steps of the specification produce, applied
    in its order to the velocity the boid had: plus separation times
    AVOID_FACTOR, plus MATCHING_FACTOR times (average velocity minus the
    velocity so far), plus CENTERING_FACTOR times (average position minus
    position), the blend with the destination velocity, plus jitter, speed
    limit.  The accumulators are those of the boid's own pass, over the
    boids as that pass finds them; the position then advances by the new
    velocity. *)
Theorem update_integration_order k (fl : Flock F) i b :
  mBoids fl !! i = Some b ->
  exists b',
    mBoids (update powf noise k fl).2 !! i = Some b'
    /\ let a := average (scan powf i b 0
                           (run powf noise (mDest fl) k (mBoids fl) i).2 acc0) in
       mVel b'
       = integrate_spec (mPos b) (separation a) (avg_vel a) (avg_pos a)
           (vmul (normalized (mDest fl -^ mPos b)%flt) MAX_SPEED)
           (jitter noise (k + 2 * i)) (mVel b)
       /\ mPos b' = (mPos b +^ mVel b')%flt.
Proof.
  intros Hb. eexists. split; [by apply update_lookup|].
  repeat split.
Qed.
End Integration.

Lemma update_integration_order_witness :
  exists b',
    mBoids (update sample_pow no_noise 0 pointer_flock).2 !! 0 = Some b'
    /\ mVel b'
       = integrate_spec (mkVec (of_int 0) (of_int 0)) vzero vzero vzero
           (vmul (normalized (mkVec (of_int 100) (of_int 0)
                              -^ mkVec (of_int 0) (of_int 0))%flt) MAX_SPEED)
           (jitter no_noise 0) vzero
    /\ mPos b' = (mkVec (of_int 0) (of_int 0) +^ mVel b')%flt.
Proof.
  exact (update_integration_order sample_pow no_noise 0 pointer_flock 0 _ eq_refl).
Defined.

(** ** binary32: the constants *)

(** The constants of [Flock] as binary32 values [m * 2^e]: each decimal
    literal is the nearest [float], as a C++ compiler reads it
    (0.0005f is 0x3A03126F, 1e-2f is 0x3C23D70A, ...). *)
Lemma literals_binary32 :
  AVOID_FACTOR = S754_finite false 8388608 (-24)
  /\ VISUAL_RANGE = S754_finite false 10485760 (-19)
  /\ CENTERING_FACTOR = S754_finite false 8589935 (-34)
  /\ MATCHING_FACTOR = S754_finite false 13421773 (-28)
  /\ MAX_SPEED = S754_finite false 12582912 (-21)
  /\ MIN_SPEED = S754_finite false 8388608 (-23)
  /\ BIAS_VAL = S754_finite false 10737418 (-31)
  /\ NOISE_STRENGTH = S754_finite false 13421773 (-27)
  /\ SPEED_EPS = S754_finite false 10737418 (-30)
  /\ of_int 0 = S754_zero false.
Proof. repeat split. Qed.

(** ** binary32: NaN, once produced, stays *)

Section NaN.
Local Open Scope flt_scope.
Implicit Types x y : float.

Lemma fadd_nan_l y : S754_nan + y = S754_nan.
Proof. reflexivity. Qed.
Lemma fadd_nan_r x : x + S754_nan = S754_nan.
Proof. by destruct x. Qed.
Lemma fsub_nan_l y : S754_nan - y = S754_nan.
Proof. reflexivity. Qed.
Lemma fsub_nan_r x : x - S754_nan = S754_nan.
Proof. by destruct x. Qed.
Lemma fmul_nan_l y : S754_nan * y = S754_nan.
Proof. reflexivity. Qed.
Lemma fmul_nan_r x : x * S754_nan = S754_nan.
Proof. by destruct x. Qed.
Lemma fdiv_nan_r x : x / S754_nan = S754_nan.
Proof. by destruct x. Qed.
Lemma fltb_nan_l y : (S754_nan <? y) = false.
Proof. reflexivity. Qed.
Lemma fltb_nan_r x : (x <? S754_nan) = false.
Proof. by destruct x. Qed.

(** [x - x] is [+0] for a finite [x] (rounding to nearest). *)
Lemma fsub_diag x : finite x = true -> x - x = S754_zero false.
Proof.
  destruct x as [s|s| |s m e]; try done; intros _.
  - by destruct s.
  - simpl. by rewrite Z.sub_diag.
Qed.

(** Zero divided by (zero times anything) is NaN: the product is a zero
    or NaN, whatever [std::pow] returned. *)
Lemma zero_div_zero_mul s p : S754_zero s / (S754_zero false * p) = S754_nan.
Proof. by destruct s, p as [[]|[]| |[] ? ?]. Qed.

Lemma vadd_nan_l (v : Vec float) : nan_vec +^ v = nan_vec.
Proof. reflexivity. Qed.
Lemma vadd_nan_r (v : Vec float) : v +^ nan_vec = nan_vec.
Proof. unfold vadd, nan_vec. simpl vx. simpl vy. by rewrite !fadd_nan_r. Qed.
Lemma vsub_nan_r (v : Vec float) : v -^ nan_vec = nan_vec.
Proof. unfold vsub, nan_vec. simpl vx. simpl vy. by rewrite !fsub_nan_r. Qed.
Lemma vmul_nan_l (c : float) : vmul nan_vec c = nan_vec.
Proof. reflexivity. Qed.
Lemma smul_nan_r (c : float) : smul c nan_vec = nan_vec.
Proof. reflexivity. Qed.

Lemma vsub_diag (v : Vec float) :
  finite_vec v = true -> v -^ v = mkVec (S754_zero false) (S754_zero false).
Proof.
  unfold finite_vec. intros [Hx Hy]%andb_prop. unfold vsub.
  by rewrite !fsub_diag.
Qed.

Lemma speed_limit_nan : speed_limit nan_vec = nan_vec.
Proof. reflexivity. Qed.

(** A NaN velocity in, a NaN velocity out. *)
Lemma rules_nan_separation pos vel (a : Acc float) :
  separation a = nan_vec -> rules pos vel a = nan_vec.
Proof.
  intros Ha. unfold rules. rewrite Ha, vmul_nan_l, vadd_nan_r.
  by rewrite vsub_nan_r, smul_nan_r, vadd_nan_l.
Qed.

Lemma bias_nan_vel dest pos : bias dest pos nan_vec = nan_vec.
Proof. reflexivity. Qed.

Lemma bias_nan_dest dest pos vel :
  toDest dest pos = nan_vec -> bias dest pos vel = nan_vec.
Proof. intros Hd. unfold bias. by rewrite Hd, smul_nan_r, vadd_nan_r. Qed.

Lemma average_separation (a : Acc float) : separation (average a) = separation a.
Proof. unfold average. by destruct (0 <? neighbourhood_size a)%Z. Qed.

(** The end of a pass whose velocity before the speed limit is NaN: the
    comparisons of the limit are both false, the velocity is stored as it
    is, and [move()] adds it to the position. *)
Lemma update_boid_nan powf noise dest k i bs (b : Boid float) :
  steer powf noise dest k i bs b = nan_vec ->
  update_boid powf noise dest k i bs b
  = mkBoid nan_vec nan_vec (mRadius b) (mColor b).
Proof.
  intros Hs. unfold update_boid. rewrite Hs, speed_limit_nan.
  unfold move. simpl. by rewrite vadd_nan_r.
Qed.
End NaN.

(** ** binary32: rounding keeps the sign *)

Section Sign.
Local Open Scope Z_scope.

Lemma shr_1_nonneg mrs : 0 <= shr_m mrs -> 0 <= shr_m (shr_1 mrs).
Proof.
  destruct mrs as [m r s]. simpl. intros Hm.
  destruct m as [|[p|p|]|p]; simpl; lia.
Qed.

Lemma iter_pos_inv {A} (P : A -> Prop) (f : A -> A) :
  (forall x, P x -> P (f x)) -> forall n x, P x -> P (iter_pos f n x).
Proof.
  intros Hf. induction n as [n IH|n IH|]; intros x Hx; simpl; auto.
Qed.

Lemma shr_nonneg mrs e n : 0 <= shr_m mrs -> 0 <= shr_m (shr mrs e n).1.
Proof.
  intros Hm. destruct n; simpl; try done.
  apply (iter_pos_inv (fun r => 0 <= shr_m r)); [apply shr_1_nonneg|done].
Qed.

Lemma shr_fexp_nonneg m e l :
  0 <= m -> 0 <= shr_m (shr_fexp prec emax m e l).1.
Proof.
  intros Hm. unfold shr_fexp. apply shr_nonneg. by destruct l as [|[]].
Qed.

Lemma round_nearest_even_nonneg m l : 0 <= m -> 0 <= round_nearest_even m l.
Proof.
  intros Hm. destruct l as [|[]]; simpl; try done; [|lia].
  destruct (Z.even m); lia.
Qed.

(** Rounding a non-negative significand gives a zero, a finite value or
    an infinity of the sign asked for, never NaN. *)
Lemma binary_round_aux_sign sx mx ex lx :
  0 <= mx -> has_sign sx (binary_round_aux prec emax sx mx ex lx).
Proof.
  intros Hm. unfold binary_round_aux.
  pose proof (shr_fexp_nonneg mx ex lx Hm) as H1.
  destruct (shr_fexp prec emax mx ex lx) as [mrs' e'] eqn:E1. simpl in H1.
  pose proof (shr_fexp_nonneg _ e' loc_Exact
                (round_nearest_even_nonneg _ (loc_of_shr_record mrs') H1)) as H2.
  destruct (shr_fexp prec emax (round_nearest_even _ _) e' loc_Exact)
    as [mrs'' e''] eqn:E2. simpl in H2.
  destruct (shr_m mrs'') as [|m|m]; simpl; [done| |lia].
  by destruct (e'' <=? emax - prec).
Qed.

(** A radius [r] with [0 < r]. *)
Lemma positive_cases (r : float) :
  (of_int 0 <? r)%flt = true ->
  r = S754_infinity false \/ exists m e, r = S754_finite false m e.
Proof.
  destruct r as [s|[]| |[] m e]; try done; eauto.
Qed.

Lemma fadd_positive (r1 r2 : float) :
  (of_int 0 <? r1)%flt = true -> (of_int 0 <? r2)%flt = true ->
  has_sign false (r1 + r2)%flt.
Proof.
  intros [->|(m1 & e1 & ->)]%positive_cases
         [->|(m2 & e2 & ->)]%positive_cases; try done.
  simpl. unfold binary_round.
  destruct (shl_align _ _ _) as [mz ez]. by apply binary_round_aux_sign.
Qed.

(** Two boids at one place are within the visual range: the length is
    [+0] and the distance between the surfaces is minus the radii. *)
Lemma zero_minus_positive_near (s : float) :
  has_sign false s -> (S754_zero false - s <? VISUAL_RANGE)%flt = true.
Proof.
  destruct s as [?|?| |? m e]; simpl; try done; by intros ->.
Qed.
End Sign.

(** ** binary32: the two unguarded divisions *)

Section Unguarded.
Variable powf : float -> float -> float.
Variable noise : nat -> float.
Local Open Scope flt_scope.

(** [normalized()] of the zero vector is [0 / 0] in both components. *)
Lemma toDest_at_dest (p : Vec float) :
  finite_vec p = true -> toDest p p = nan_vec.
Proof. intros Hp. unfold toDest. by rewrite vsub_diag. Qed.

Lemma steer_at_dest dest k i bs (b : Boid float) :
  mPos b = dest -> finite_vec dest = true ->
  steer powf noise dest k i bs b = nan_vec.
Proof.
  intros <- Hp. unfold steer.
  by rewrite bias_nan_dest by (by apply toDest_at_dest).
Qed.

(** A boid that sits on the destination leaves [update()] with NaN in
    its velocity and in its position, wherever it stands in the flock. *)
Lemma update_at_destination k (fl : Flock float) i b :
  mBoids fl !! i = Some b ->
  mPos b = mDest fl -> finite_vec (mDest fl) = true ->
  mBoids (update powf noise k fl).2 !! i
  = Some (mkBoid nan_vec nan_vec (mRadius b) (mColor b)).
Proof.
  intros Hb Hp Hf. rewrite (update_lookup _ _ _ _ _ _ Hb).
  by rewrite update_boid_nan by (by apply steer_at_dest).
Qed.

(** The inner loop on a boid [o] at the position of [b]: [toOther] is
    the zero vector, [len] is [+0], the test passes for positive radii and
    the quotient of line 102 is [0 / (0 * pow)]. *)
Lemma visit_coincident (b o : Boid float) a :
  mPos o = mPos b -> finite_vec (mPos b) = true ->
  (of_int 0 <? mRadius b) = true -> (of_int 0 <? mRadius o) = true ->
  separation (visit powf b o a) = nan_vec.
Proof.
  intros Hp Hf Hb Ho. unfold visit. rewrite Hp, vsub_diag by done.
  change (length (mkVec (S754_zero false) (S754_zero false)))
    with (S754_zero false).
  rewrite zero_minus_positive_near by (by apply fadd_positive).
  cbn [separation]. unfold vdiv. cbn [vx vy]. rewrite zero_div_zero_mul.
  apply vsub_nan_r.
Qed.

Lemma visit_keeps_nan (b o : Boid float) a :
  separation a = nan_vec -> separation (visit powf b o a) = nan_vec.
Proof.
  intros Ha. unfold visit.
  destruct (_ <? VISUAL_RANGE); [|done]. simpl. by rewrite Ha.
Qed.

Lemma foldl_visit_keeps_nan (b : Boid float) os a :
  separation a = nan_vec ->
  separation (foldl (fun a o => visit powf b o a) a os) = nan_vec.
Proof.
  revert a. induction os as [|o os IH]; intros a Ha; simpl; [done|].
  by apply IH, visit_keeps_nan.
Qed.

Lemma foldl_visit_coincident (b o : Boid float) os a :
  o ∈ os ->
  mPos o = mPos b -> finite_vec (mPos b) = true ->
  (of_int 0 <? mRadius b) = true -> (of_int 0 <? mRadius o) = true ->
  separation (foldl (fun a o => visit powf b o a) a os) = nan_vec.
Proof.
  intros Hin Hp Hf Hb Ho. revert a.
  induction Hin as [o os|o o' os _ IH]; intros a; simpl.
  - by apply foldl_visit_keeps_nan, visit_coincident.
  - by apply IH.
Qed.

Lemma elem_of_others i j0 (bs : list (Boid float)) j (o : Boid float) :
  bs !! j = Some o -> (j0 + j)%nat ≠ i -> o ∈ others i j0 bs.
Proof.
  revert j0 j. induction bs as [|o' bs IH]; intros j0 j Hj Hne; [done|].
  simpl. destruct j as [|j]; simplify_eq/=.
  - rewrite (proj2 (Nat.eqb_neq i j0)) by lia. left.
  - assert (o ∈ others i (S j0) bs) by (apply (IH _ j); [done|lia]).
    destruct (Nat.eqb i j0); [done|by right].
Qed.

(** A boid with a later boid at its own position leaves [update()] with
    NaN in its velocity and in its position. *)
Lemma update_coincident k (fl : Flock float) i j b o :
  mBoids fl !! i = Some b -> mBoids fl !! j = Some o -> i < j ->
  mPos o = mPos b -> finite_vec (mPos b) = true ->
  (of_int 0 <? mRadius b) = true -> (of_int 0 <? mRadius o) = true ->
  mBoids (update powf noise k fl).2 !! i
  = Some (mkBoid nan_vec nan_vec (mRadius b) (mColor b)).
Proof.
  intros Hb Ho Hij Hp Hf Hrb Hro. rewrite (update_lookup _ _ _ _ _ _ Hb).
  rewrite update_boid_nan; [done|]. unfold steer.
  rewrite rules_nan_separation; [done|].
  rewrite average_separation, scan_others.
  apply (foldl_visit_coincident b o); try done.
  apply (elem_of_others _ _ _ j); [|lia].
  by rewrite run_lookup_ge by lia.
Qed.
End Unguarded.

(** ** binary32: the program on three small flocks *)

Section Evaluations.
Variable powf : float -> float -> float.
Variable noise : nat -> float.

(** C1. Two boids of radius 2 added at the pixel (100, 100), then one
    [update()]: the first boid ends with NaN in both components of its
    velocity and of its position, whatever [std::pow] and the generator
    return.  Line 102 divides by [len * pow(2, dist)] with [len = 0];
    nothing replaces a small [len] by an epsilon. *)
Theorem coincident_boids_nan k :
  mBoids (update powf noise k coincident_flock).2 !! 0
  = Some (mkBoid nan_vec nan_vec (of_int 2) white).
Proof.
  set (b := mkBoid (mkVec (of_int 100) (of_int 100)) vzero (of_int 2) white
            : Boid float).
  by apply (update_coincident powf noise k coincident_flock 0 1 b b);
    [..|lia| | | |].
Qed.

(** C3. One boid added at the pixel (0, 0) of a flock whose destination
    is still (0, 0), then one [update()]: the direction to the destination
    is [normalized()] of the zero vector, which is NaN in both components
    and not the zero vector, and the boid ends with NaN in its velocity
    and in its position. *)
Theorem boid_at_destination_nan k :
  normalized (mDest corner_flock -^ mkVec (of_int 0) (of_int 0))%flt = nan_vec
  /\ mBoids (update powf noise k corner_flock).2
     = [mkBoid nan_vec nan_vec (of_int 2) white].
Proof.
  split; [reflexivity|].
  pose proof (update_at_destination powf noise k corner_flock 0 _
                eq_refl eq_refl eq_refl) as H0.
  pose proof (update_length powf noise k corner_flock) as Hl.
  destruct (mBoids (update powf noise k corner_flock).2) as [|b [|? ?]];
    simplify_eq/=; done.
Qed.

(** C4. One boid alone at (100, 0) with the velocity (0, 0) it was
    created with: the inner loop visits nobody, the three accumulators
    stay zero and the count stays 0, and yet lines 119-120 change the
    velocity: the cohesion line pulls towards the average position
    (0, 0), the origin of the window, by 0.0005 * 100. *)
Theorem isolated_boid_pulled :
  let a := average (scan powf 0 lone_boid 0 [lone_boid] acc0) in
  a = acc0
  /\ rules (mPos lone_boid) (mVel lone_boid) a
     = mkVec (S754_finite true 13421773 (-28)) (S754_zero false)
  /\ rules (mPos lone_boid) (mVel lone_boid) a ≠ mVel lone_boid.
Proof. repeat split. by vm_compute. Qed.
End Evaluations.

(** ** binary32: rounding *)

(** [SpecFloat] gives the operations of binary32 as programs on
    significands and exponents.  This section reads them as functions on
    the integers in units of [2^-149]: what a rounded sum is ([rnd] of the
    exact sum), that rounding is monotone, that the order of valid floats
    is the order of their values, and that every rounded result is a
    valid float. *)

Section Rounding.
Local Open Scope Z_scope.

Lemma digits2_pos_size m : digits2_pos m = Pos.size m.
Proof. induction m; simpl; congruence. Qed.

Lemma digits2_pos_log2 m : Zpos (digits2_pos m) = Z.log2 (Zpos m) + 1.
Proof.
  rewrite digits2_pos_size.
  destruct m; cbn [Pos.size Z.log2]; rewrite ?Pos2Z.inj_succ; lia.
Qed.

Lemma digits_bounds m :
  2 ^ (Zpos (digits2_pos m) - 1) <= Zpos m < 2 ^ Zpos (digits2_pos m).
Proof.
  rewrite digits2_pos_log2.
  replace (Z.log2 (Z.pos m) + 1 - 1) with (Z.log2 (Zpos m)) by lia.
  replace (Z.log2 (Z.pos m) + 1) with (Z.succ (Z.log2 (Zpos m))) by lia.
  apply Z.log2_spec. lia.
Qed.

Lemma iter_pos_iter {A} (f : A -> A) n x : iter_pos f n x = Pos.iter f x n.
Proof.
  revert x. induction n as [n IH|n IH|]; intros x; simpl; try done.
  - rewrite !IH. by rewrite <- !Pos.iter_swap.
  - by rewrite !IH.
Qed.

Lemma shr_1_spec m r s :
  0 <= m -> shr_1 (Build_shr_record m r s) = Build_shr_record (m / 2) (Z.odd m) (r || s).
Proof.
  intros Hm. destruct m as [|[p|p|]|p]; try lia; simpl; f_equal.
  - rewrite Pos2Z.inj_xI. apply (Z.div_unique _ _ _ 1); lia.
  - rewrite Pos2Z.inj_xO. apply (Z.div_unique _ _ _ 0); lia.
Qed.

(** [n] right shifts, from a record with nothing shifted out yet. *)
Lemma shr_iter_spec m n :
  0 <= m ->
  Pos.iter shr_1 (Build_shr_record m false false) n
  = Build_shr_record (m / 2 ^ Zpos n) (Z.testbit m (Zpos n - 1))
      (negb (m mod 2 ^ (Zpos n - 1) =? 0)).
Proof.
  intros Hm. induction n as [|n IH] using Pos.peano_ind.
  - change (Pos.iter shr_1 ?x 1) with (shr_1 x).
    rewrite shr_1_spec by done. change (1 - 1) with 0.
    f_equal; rewrite ?Z.pow_1_r, ?Z.bit0_odd, ?Z.pow_0_r, ?Z.mod_1_r; done.
  - rewrite Pos.iter_succ, IH, shr_1_spec by (by apply Z.div_pos; lia).
    rewrite Pos2Z.inj_succ. f_equal.
    + rewrite Z.pow_succ_r by lia. rewrite Z.div_div by lia. f_equal. lia.
    + replace (Z.succ (Z.pos n) - 1) with (Zpos n) by lia.
      by rewrite Z.testbit_odd, Z.shiftr_div_pow2 by lia.
    + replace (Z.succ (Z.pos n) - 1) with (Z.succ (Zpos n - 1)) by lia.
      set (j := Zpos n - 1). assert (0 <= j) by lia.
      rewrite Z.pow_succ_r by done.
      pose proof (Z.testbit_spec' m j ltac:(done)) as Hbit.
      pose proof (Z.mod_pos_bound m (2 ^ j) ltac:(lia)).
      assert (Hsplit : m mod (2 * 2 ^ j)
                       = 2 ^ j * ((m / 2 ^ j) mod 2) + m mod 2 ^ j).
      { rewrite (Z.mul_comm 2). rewrite Z.rem_mul_r by lia. lia. }
      rewrite Hsplit, <- Hbit.
      destruct (Z.testbit m j); simpl Z.b2z;
        destruct (Z.eqb_spec (m mod 2 ^ j) 0) as [E'|E']; simpl.
      * symmetry. apply negb_true_iff, Z.eqb_neq. nia.
      * symmetry. apply negb_true_iff, Z.eqb_neq. nia.
      * symmetry. apply negb_false_iff, Z.eqb_eq. lia.
      * symmetry. apply negb_true_iff, Z.eqb_neq. lia.
Qed.

Lemma fexp_eq e : fexp prec emax e = Z.max (e - 24) (-149).
Proof. reflexivity. Qed.

Lemma shr_zero mrs e : shr mrs e 0 = (mrs, e).
Proof. reflexivity. Qed.

(** Rounding a significand that already fits: nothing is shifted. *)
Lemma binary_round_aux_canonical s m E :
  fexp prec emax (Zpos (digits2_pos m) + E) = E ->
  binary_round_aux prec emax s (Zpos m) E loc_Exact
  = if E <=? emax - prec then S754_finite s m E else S754_infinity s.
Proof.
  intros Hc. unfold binary_round_aux, shr_fexp. cbn [Zdigits2 shr_record_of_loc].
  rewrite Hc, Z.sub_diag, shr_zero. cbn [shr_m loc_of_shr_record round_nearest_even].
  cbn [Zdigits2 shr_record_of_loc]. rewrite Hc, Z.sub_diag, shr_zero. 
  reflexivity.
Qed.

Lemma Zdigits2_log2 q : 0 < q -> Zdigits2 q = Z.log2 q + 1.
Proof.
  destruct q as [|q|q]; try lia. intros _. apply digits2_pos_log2.
Qed.

Lemma round_nearest_even_bits q rb st :
  round_nearest_even q (loc_of_shr_record (Build_shr_record q rb st))
  = q + (if rb && (st || Z.odd q) then 1 else 0).
Proof.
  destruct rb, st; simpl; try lia.
  rewrite <- Z.negb_odd. destruct (Z.odd q); simpl; lia.
Qed.

(** Rounding a significand of [24 + n] digits: [n] bits are shifted out,
    the quotient is rounded to nearest even, and a carry into a 25th digit
    is shifted out once more. *)
Lemma binary_round_aux_shift s M e p :
  Zpos (digits2_pos M) = 24 + Zpos p ->
  -149 <= e + Zpos p ->
  let q := Zpos M / 2 ^ Zpos p in
  let up := Z.testbit (Zpos M) (Zpos p - 1)
            && (negb (Zpos M mod 2 ^ (Zpos p - 1) =? 0) || Z.odd q) in
  let q' := q + (if up then 1 else 0) in
  2 ^ 23 <= q < 2 ^ 24
  /\ binary_round_aux prec emax s (Zpos M) e loc_Exact
     = if q' <? 2 ^ 24 then
         if e + Zpos p <=? 104 then S754_finite s (Z.to_pos q') (e + Zpos p)
         else S754_infinity s
       else
         if e + Zpos p + 1 <=? 104
         then S754_finite s (2 ^ 23)%positive (e + Zpos p + 1)
         else S754_infinity s.
Proof.
  intros Hd He q up q'.
  pose proof (digits_bounds M) as HM. rewrite Hd in HM.
  assert (Hq : 2 ^ 23 <= q < 2 ^ 24).
  { subst q. split.
    - apply Z.div_le_lower_bound; [lia|].
      rewrite <- Z.pow_add_r by lia.
      replace (Zpos p + 23) with (24 + Zpos p - 1) by lia. lia.
    - apply Z.div_lt_upper_bound; [lia|].
      rewrite <- Z.pow_add_r by lia.
      replace (Zpos p + 24) with (24 + Zpos p) by lia. lia. }
  split; [done|].
  unfold binary_round_aux, shr_fexp. cbn [Zdigits2 shr_record_of_loc].
  rewrite Hd, fexp_eq.
  replace (Z.max (24 + Z.pos p + e - 24) (-149) - e) with (Zpos p) by lia.
  cbn [shr]. rewrite iter_pos_iter, shr_iter_spec by lia.
  cbn [shr_m]. rewrite round_nearest_even_bits.
  fold q. fold up. fold q'.
  assert (Hq' : q' = q \/ q' = q + 1) by (subst q'; destruct up; lia).
  destruct (Z.ltb_spec q' (2 ^ 24)) as [Hlt|Hge].
  - assert (Hdig : Zdigits2 q' = 24).
    { rewrite Zdigits2_log2 by lia.
      rewrite (Z.log2_unique q' 23); lia. }
    rewrite Hdig, fexp_eq.
    replace (Z.max (24 + (e + Z.pos p) - 24) (-149) - (e + Z.pos p)) with 0 by lia.
    rewrite shr_zero. cbn [shr_m].
    destruct q' as [|x|x]; try lia. reflexivity.
  - assert (q' = 2 ^ 24) as -> by lia.
    change (Zdigits2 (2 ^ 24)) with 25. rewrite fexp_eq.
    replace (Z.max (25 + (e + Z.pos p) - 24) (-149) - (e + Z.pos p)) with 1 by lia.
    reflexivity.
Qed.

(** ** Rounding on integers: the unit is [2^emin] *)

Lemma canonical_exponent m E :
  fexp prec emax (Zpos (digits2_pos m) + E) = E ->
  -149 <= E /\ shift_of (Zpos m * 2 ^ (E + 149)) = E + 149.
Proof.
  rewrite fexp_eq, digits2_pos_log2. intros Hc. split; [lia|].
  unfold shift_of. rewrite Z.log2_mul_pow2 by lia. lia.
Qed.

Lemma canonical_rnd m E :
  fexp prec emax (Zpos (digits2_pos m) + E) = E ->
  let N := Zpos m * 2 ^ (E + 149) in
  rnd_pos N = Z.min N big /\ (N < big <-> E <= 104).
Proof.
  intros Hc N. destruct (canonical_exponent m E Hc) as [HE Hk].
  split.
  - unfold rnd_pos, round_up, N. rewrite Hk. cbn zeta.
    rewrite Z.div_mul, Z.mod_mul by lia.
    replace (2 ^ (E + 149) <? 2 * 0) with false by (symmetry; apply Z.ltb_ge; lia).
    replace (2 ^ (E + 149) =? 2 * 0) with false by (symmetry; apply Z.eqb_neq; lia).
    simpl. by rewrite Z.add_0_r.
  - pose proof (digits_bounds m) as Hm.
    rewrite fexp_eq in Hc. unfold N, big. split.
    + intros Hlt. destruct (Z.le_gt_cases E 104) as [|Hgt]; [done|].
      exfalso. assert (Zpos (digits2_pos m) = 24) as Hd by lia.
      rewrite Hd in Hm.
      assert (2 ^ 277 <= 2 ^ 23 * 2 ^ (E + 149)).
      { rewrite <- Z.pow_add_r by lia. apply Z.pow_le_mono_r; lia. }
      nia.
    + intros Hle.
      assert (Z.pos m < 2 ^ 24).
      { eapply Z.lt_le_trans; [apply Hm|]. apply Z.pow_le_mono_r; lia. }
      assert (2 ^ 24 * 2 ^ (E + 149) <= 2 ^ 277).
      { rewrite <- Z.pow_add_r by lia. apply Z.pow_le_mono_r; lia. }
      assert (0 < 2 ^ (E + 149)) by lia. nia.
Qed.

Lemma mod_split M p :
  0 <= M ->
  M mod 2 ^ Zpos p
  = 2 ^ (Zpos p - 1) * Z.b2z (Z.testbit M (Zpos p - 1)) + M mod 2 ^ (Zpos p - 1).
Proof.
  intros HM. rewrite Z.testbit_spec' by lia.
  replace (2 ^ Zpos p) with (2 ^ (Zpos p - 1) * 2).
  - rewrite Z.rem_mul_r by lia. lia.
  - rewrite Z.mul_comm, <- Z.pow_succ_r by lia. f_equal. lia.
Qed.

Lemma shift_rnd M e p :
  Zpos (digits2_pos M) = 24 + Zpos p -> -149 <= e ->
  let N := Zpos M * 2 ^ (e + 149) in
  let q := Zpos M / 2 ^ Zpos p in
  let up := Z.testbit (Zpos M) (Zpos p - 1)
            && (negb (Zpos M mod 2 ^ (Zpos p - 1) =? 0) || Z.odd q) in
  rnd_pos N
  = Z.min ((q + (if up then 1 else 0)) * 2 ^ (e + Zpos p + 149)) big.
Proof.
  intros Hd He N q up.
  assert (Hk : shift_of N = e + Zpos p + 149).
  { unfold shift_of, N. rewrite Z.log2_mul_pow2 by lia.
    rewrite digits2_pos_log2 in Hd. lia. }
  assert (Hpow : 2 ^ (e + Zpos p + 149) = 2 ^ Zpos p * 2 ^ (e + 149)).
  { rewrite <- Z.pow_add_r by lia. f_equal. lia. }
  assert (Hc : 0 < 2 ^ (e + 149)) by lia.
  assert (HA : 0 < 2 ^ Zpos p) by lia.
  unfold rnd_pos. rewrite Hk.
  assert (Hdiv : N / 2 ^ (e + Zpos p + 149) = q).
  { unfold N, q. rewrite Hpow. rewrite Z.div_mul_cancel_r by lia. done. }
  assert (Hmod : N mod 2 ^ (e + Zpos p + 149)
                 = (Zpos M mod 2 ^ Zpos p) * 2 ^ (e + 149)).
  { unfold N. rewrite Hpow. by rewrite Z.mul_mod_distr_r by lia. }
  assert (Hup : round_up N (e + Zpos p + 149) = up).
  { unfold round_up. rewrite Hdiv, Hmod, Hpow. fold q.
    pose proof (mod_split (Zpos M) p ltac:(lia)) as Hs.
    pose proof (Z.mod_pos_bound (Zpos M) (2 ^ (Zpos p - 1)) ltac:(lia)) as Hlow.
    assert (H2 : 2 ^ Zpos p = 2 * 2 ^ (Zpos p - 1)).
    { rewrite <- Z.pow_succ_r by lia. f_equal. lia. }
    set (A := 2 ^ Zpos p) in *. set (c := 2 ^ (e + 149)) in *.
    set (R := Zpos M mod A) in *. set (low := Zpos M mod 2 ^ (Zpos p - 1)) in *.
    set (h := 2 ^ (Zpos p - 1)) in *.
    subst up. fold low.
    destruct (Z.testbit (Zpos M) (Zpos p - 1)); simpl Z.b2z in Hs; simpl andb.
    - destruct (Z.eqb_spec low 0) as [E0|E0]; simpl.
      + replace (A * c <? 2 * (R * c)) with false
          by (symmetry; apply Z.ltb_ge; nia).
        replace (A * c =? 2 * (R * c)) with true
          by (symmetry; apply Z.eqb_eq; nia).
        done.
      + replace (A * c <? 2 * (R * c)) with true
          by (symmetry; apply Z.ltb_lt; nia).
        done.
    - replace (A * c <? 2 * (R * c)) with false
        by (symmetry; apply Z.ltb_ge; nia).
      replace (A * c =? 2 * (R * c)) with false
        by (symmetry; apply Z.eqb_neq; nia).
      done. }
  by rewrite Hdiv, Hup.
Qed.

(** ** What a rounded value is *)

Lemma rounds_to_ext s v x :
  rounds_to s v x ->
  ext x = cond_Zopp s (Z.min v big) /\ valid x = true /\ not_nan x = true.
Proof.
  intros [[Hv ->]|(m & e & -> & Hb & <- & Hlt)]; simpl.
  - by rewrite Z.min_r by done.
  - by rewrite Z.min_l by lia.
Qed.

Lemma canonical_rounds_to s m E :
  fexp prec emax (Zpos (digits2_pos m) + E) = E ->
  rounds_to s (Zpos m * 2 ^ (E + 149))
    (if E <=? emax - prec then S754_finite s m E else S754_infinity s).
Proof.
  intros Hc. destruct (canonical_rnd m E Hc) as [_ Hbig].
  change (emax - prec) with 104.
  destruct (Z.leb_spec E 104) as [Hle|Hgt].
  - right. exists m, E. split; [done|]. split; [|split; [done|by apply Hbig]].
    unfold bounded, canonical_mantissa. rewrite Hc, Z.eqb_refl. simpl.
    apply Z.leb_le. by change (emax - prec) with 104.
  - left. split; [|done].
    destruct (Z.le_gt_cases big (Zpos m * 2 ^ (E + 149))) as [|Hlt]; [done|].
    apply Hbig in Hlt. lia.
Qed.

Lemma pos_iter_xO m d : Zpos (Pos.iter xO m d) = Zpos m * 2 ^ Zpos d.
Proof.
  induction d as [|d IH] using Pos.peano_ind.
  - simpl. lia.
  - rewrite Pos.iter_succ, Pos2Z.inj_xO, IH, Pos2Z.inj_succ, Z.pow_succ_r by lia.
    lia.
Qed.

Lemma digits_iter_xO m d :
  Zpos (digits2_pos (Pos.iter xO m d)) = Zpos (digits2_pos m) + Zpos d.
Proof.
  rewrite !digits2_pos_log2, pos_iter_xO, Z.log2_mul_pow2 by lia. lia.
Qed.

(** [binary_round] of [M * 2^e], for [e] at or above [emin]: the value
    [rnd_pos] gives, with the sign asked for. *)
Lemma binary_round_rnd s M e :
  -149 <= e ->
  exists v, 0 < v /\ rnd_pos (Zpos M * 2 ^ (e + 149)) = Z.min v big
            /\ rounds_to s v (binary_round prec emax s M e).
Proof.
  intros He. unfold binary_round, shl_align.
  pose proof (digits_bounds M) as HM.
  set (d0 := Zpos (digits2_pos M)) in *.
  assert (HE : fexp prec emax (d0 + e) = Z.max (d0 + e - 24) (-149))
    by apply fexp_eq.
  set (E := fexp prec emax (d0 + e)) in *.
  destruct (E - e) as [|n|d] eqn:Hn.
  - (* nothing to shift *)
    assert (E = e) as HEe by lia.
    exists (Zpos M * 2 ^ (e + 149)).
    assert (Hc : fexp prec emax (Zpos (digits2_pos M) + e) = e) by (fold d0; lia).
    destruct (canonical_rnd M e Hc) as [Hr _].
    split; [lia|]. split; [done|].
    rewrite binary_round_aux_canonical by done.
    by apply canonical_rounds_to.
  - (* [n] bits shifted out *)
    assert (Hd : Zpos (digits2_pos M) = 24 + Zpos n) by (fold d0; lia).
    assert (HEn : e + Zpos n = E) by lia.
    destruct (binary_round_aux_shift s M e n Hd ltac:(lia)) as [Hq ->].
    rewrite (shift_rnd M e n Hd He).
    set (q := Zpos M / 2 ^ Zpos n) in *.
    set (up := Z.testbit _ _ && _).
    set (q' := q + (if up then 1 else 0)).
    assert (Hq' : q' = q \/ q' = q + 1) by (subst q'; destruct up; lia).
    exists (q' * 2 ^ (e + Zpos n + 149)).
    split; [nia|]. split; [done|]. rewrite HEn.
    destruct (Z.ltb_spec q' (2 ^ 24)) as [Hlt|Hge].
    + assert (Hq'pos : q' = Zpos (Z.to_pos q')) by (rewrite Z2Pos.id; lia).
      rewrite Hq'pos at 1.
      apply canonical_rounds_to.
      rewrite digits2_pos_log2, <- Hq'pos, (Z.log2_unique q' 23) by lia.
      rewrite fexp_eq. lia.
    + assert (q' = 2 ^ 24) as -> by lia.
      replace (2 ^ 24 * 2 ^ (E + 149))
        with (Zpos (2 ^ 23) * 2 ^ (E + 1 + 149)).
      * apply canonical_rounds_to. change (Z.pos (digits2_pos (2 ^ 23))) with 24.
        rewrite fexp_eq. lia.
      * replace (E + 1 + 149) with (Z.succ (E + 149)) by lia.
        rewrite Z.pow_succ_r by lia. change (Zpos (2 ^ 23)) with (2 ^ 23). 
        change (2 ^ 24) with (2 * 2 ^ 23). lia.
  - (* the significand is shifted left to its canonical place *)
    assert (Hde : Zpos d = e - E) by lia.
    cbn [fst snd].
    assert (Hc : fexp prec emax (Zpos (digits2_pos (Pos.iter xO M d)) + E) = E).
    { rewrite digits_iter_xO. fold d0. replace (d0 + Zpos d + E) with (d0 + e) by lia.
      done. }
    assert (Hval : Zpos (Pos.iter xO M d) * 2 ^ (E + 149) = Zpos M * 2 ^ (e + 149)).
    { rewrite pos_iter_xO, <- Z.mul_assoc, <- Z.pow_add_r by lia. do 2 f_equal. lia. }
    exists (Zpos M * 2 ^ (e + 149)).
    destruct (canonical_rnd _ E Hc) as [Hr _]. rewrite Hval in Hr.
    split; [lia|]. split; [done|].
    rewrite binary_round_aux_canonical by done. rewrite <- Hval.
    by apply canonical_rounds_to.
Qed.

(** ** Rounding is monotone *)

Lemma shift_of_small N : 0 <= N < 2 ^ 24 -> shift_of N = 0.
Proof.
  intros [H0 Hlt]. unfold shift_of.
  destruct (Z.eq_dec N 0) as [->|Hne]; [done|].
  assert (Z.log2 N < 24) by (apply Z.log2_lt_pow2; lia). lia.
Qed.

Lemma shift_of_large N :
  2 ^ 24 <= N ->
  let k := shift_of N in
  1 <= k /\ 2 ^ 23 * 2 ^ k <= N < 2 ^ 24 * 2 ^ k.
Proof.
  intros HN k.
  assert (24 <= Z.log2 N) by (apply Z.log2_le_pow2; lia).
  assert (Hk : k = Z.log2 N - 23) by (unfold k, shift_of; lia).
  split; [lia|].
  pose proof (Z.log2_spec N ltac:(lia)) as Hs.
  rewrite <- !Z.pow_add_r by lia.
  replace (23 + k) with (Z.log2 N) by lia.
  replace (24 + k) with (Z.succ (Z.log2 N)) by lia. done.
Qed.

Lemma shift_of_mono N1 N2 : 0 <= N1 <= N2 -> shift_of N1 <= shift_of N2.
Proof.
  intros H. unfold shift_of.
  pose proof (Z.log2_le_mono N1 N2 ltac:(lia)). lia.
Qed.

Lemma rnd_pos_raw N : rnd_pos N = Z.min (rnd_raw N) big.
Proof. reflexivity. Qed.

Lemma rnd_raw_small N : 0 <= N < 2 ^ 24 -> rnd_raw N = N.
Proof.
  intros HN. unfold rnd_raw, round_up. rewrite shift_of_small by done.
  rewrite Z.pow_0_r, Z.div_1_r, Z.mod_1_r. simpl. lia.
Qed.

Lemma rnd_raw_bounds N :
  0 <= N ->
  let k := shift_of N in
  (N / 2 ^ k) * 2 ^ k <= rnd_raw N <= (N / 2 ^ k + 1) * 2 ^ k.
Proof.
  intros HN k. unfold rnd_raw. fold k.
  assert (0 <= k) by (unfold k, shift_of; lia).
  assert (0 < 2 ^ k) by lia.
  destruct (round_up N k); nia.
Qed.

Lemma rnd_raw_mono N1 N2 : 0 <= N1 <= N2 -> rnd_raw N1 <= rnd_raw N2.
Proof.
  intros [H0 Hle].
  pose proof (shift_of_mono N1 N2 ltac:(lia)) as Hk.
  destruct (Z.lt_ge_cases N2 (2 ^ 24)) as [Hs2|Hl2].
  { rewrite !rnd_raw_small by lia. done. }
  destruct (shift_of_large N2 Hl2) as [Hk2 HN2].
  pose proof (rnd_raw_bounds N2 ltac:(lia)) as Hb2. cbn zeta in *.
  set (k2 := shift_of N2) in *.
  assert (Hq2 : 2 ^ 23 <= N2 / 2 ^ k2).
  { apply Z.div_le_lower_bound; lia. }
  destruct (Z.lt_ge_cases N1 (2 ^ 24)) as [Hs1|Hl1].
  { rewrite (rnd_raw_small N1) by lia.
    assert (2 ^ 24 <= 2 ^ 23 * 2 ^ k2).
    { change (2 ^ 24) with (2 ^ 23 * 2 ^ 1).
      apply Z.mul_le_mono_nonneg_l; [lia|]. apply Z.pow_le_mono_r; lia. }
    nia. }
  destruct (shift_of_large N1 Hl1) as [Hk1 HN1].
  pose proof (rnd_raw_bounds N1 ltac:(lia)) as Hb1. cbn zeta in *.
  set (k1 := shift_of N1) in *.
  assert (Hq1 : N1 / 2 ^ k1 < 2 ^ 24).
  { apply Z.div_lt_upper_bound; lia. }
  destruct (Z.eq_dec k1 k2) as [Heq|Hne].
  - (* the same binade *)
    unfold rnd_raw. fold k1 k2. rewrite Heq in *. clear Heq.
    assert (Hp : 0 < 2 ^ k2) by lia.
    pose proof (Z.div_mod N1 (2 ^ k2) ltac:(lia)) as D1.
    pose proof (Z.div_mod N2 (2 ^ k2) ltac:(lia)) as D2.
    pose proof (Z.mod_pos_bound N1 (2 ^ k2) Hp) as R1.
    pose proof (Z.mod_pos_bound N2 (2 ^ k2) Hp) as R2.
    assert (Hqq : N1 / 2 ^ k2 <= N2 / 2 ^ k2) by (apply Z.div_le_mono; lia).
    apply Z.mul_le_mono_nonneg_r; [lia|].
    destruct (Z.eq_dec (N1 / 2 ^ k2) (N2 / 2 ^ k2)) as [Hq|Hq].
    + assert (Hr : N1 mod 2 ^ k2 <= N2 mod 2 ^ k2) by nia.
      unfold round_up. rewrite Hq.
      set (q := N2 / 2 ^ k2). set (r1 := N1 mod 2 ^ k2) in *.
      set (r2 := N2 mod 2 ^ k2) in *. set (P := 2 ^ k2) in *.
      destruct (Z.ltb_spec P (2 * r1)), (Z.ltb_spec P (2 * r2)),
        (Z.eqb_spec P (2 * r1)), (Z.eqb_spec P (2 * r2)),
        (Z.odd q); simpl; lia.
    + destruct (round_up N1 k2), (round_up N2 k2); lia.
  - (* a lower binade *)
    assert (Hlt : k1 + 1 <= k2) by lia.
    assert (2 ^ 24 * 2 ^ k1 <= 2 ^ 23 * 2 ^ k2).
    { rewrite <- !Z.pow_add_r by lia. apply Z.pow_le_mono_r; lia. }
    assert (0 < 2 ^ k1) by lia. assert (0 < 2 ^ k2) by lia.
    nia.
Qed.

Lemma rnd_pos_mono N1 N2 : 0 <= N1 <= N2 -> rnd_pos N1 <= rnd_pos N2.
Proof.
  intros H. rewrite !rnd_pos_raw.
  pose proof (rnd_raw_mono N1 N2 H). lia.
Qed.

Lemma rnd_pos_nonneg N : 0 <= N -> 0 <= rnd_pos N.
Proof.
  intros HN. rewrite rnd_pos_raw.
  pose proof (rnd_raw_bounds N HN) as Hb. cbn zeta in Hb.
  assert (0 <= N / 2 ^ shift_of N) by (apply Z.div_pos; unfold shift_of; lia).
  assert (0 < 2 ^ shift_of N) by (unfold shift_of; lia).
  unfold big. nia.
Qed.

Lemma rnd_mono N1 N2 : N1 <= N2 -> rnd N1 <= rnd N2.
Proof.
  intros H. unfold rnd.
  destruct (Z.ltb_spec N1 0), (Z.ltb_spec N2 0).
  - pose proof (rnd_pos_mono (- N2) (- N1) ltac:(lia)). lia.
  - pose proof (rnd_pos_nonneg (- N1) ltac:(lia)).
    pose proof (rnd_pos_nonneg N2 ltac:(lia)). lia.
  - lia.
  - apply rnd_pos_mono. lia.
Qed.

Lemma rnd_opp N : rnd (- N) = - rnd N.
Proof.
  unfold rnd. destruct (Z.ltb_spec (- N) 0), (Z.ltb_spec N 0); try lia.
  - by rewrite Z.opp_involutive.
  - assert (N = 0) as -> by lia. reflexivity.
Qed.

(** ** Valid floats and their order *)

Lemma bounded_canonical m e :
  bounded prec emax m e = true ->
  fexp prec emax (Zpos (digits2_pos m) + e) = e /\ -149 <= e <= 104.
Proof.
  unfold bounded, canonical_mantissa.
  intros [Hc Hb]%andb_prop. apply Z.eqb_eq in Hc. apply Z.leb_le in Hb.
  change (emax - prec) with 104 in Hb.
  split; [done|]. rewrite fexp_eq in Hc. lia.
Qed.

Lemma bounded_mag m e :
  bounded prec emax m e = true ->
  0 < mag m e < big /\ rnd_pos (mag m e) = mag m e.
Proof.
  intros Hb. destruct (bounded_canonical m e Hb) as [Hc He].
  destruct (canonical_rnd m e Hc) as [Hr Hbig]. fold (mag m e) in *.
  assert (mag m e < big) by (apply Hbig; lia).
  assert (0 < mag m e) by (unfold mag; lia).
  split; [done|]. rewrite Hr. lia.
Qed.

(** Between valid floats of one sign, the exponents decide first. *)
Lemma bounded_exponent_lt m1 e1 m2 e2 :
  bounded prec emax m1 e1 = true -> bounded prec emax m2 e2 = true ->
  e1 < e2 -> mag m1 e1 < mag m2 e2.
Proof.
  intros [Hc1 He1]%bounded_canonical [Hc2 He2]%bounded_canonical Hlt.
  rewrite fexp_eq in Hc1, Hc2.
  pose proof (digits_bounds m1) as H1. pose proof (digits_bounds m2) as H2.
  assert (Hd2 : Zpos (digits2_pos m2) = 24) by lia. rewrite Hd2 in H2.
  assert (Hm1 : Zpos m1 < 2 ^ 24).
  { eapply Z.lt_le_trans; [apply H1|]. apply Z.pow_le_mono_r; lia. }
  unfold mag.
  assert (2 ^ 24 * 2 ^ (e1 + 149) <= 2 ^ 23 * 2 ^ (e2 + 149)).
  { rewrite <- !Z.pow_add_r by lia. apply Z.pow_le_mono_r; lia. }
  assert (0 < 2 ^ (e1 + 149)) by lia. assert (0 < 2 ^ (e2 + 149)) by lia.
  change (24 - 1) with 23 in H2. nia.
Qed.

Lemma compare_mag m1 e1 m2 e2 :
  bounded prec emax m1 e1 = true -> bounded prec emax m2 e2 = true ->
  match e1 ?= e2 with
  | Lt => Lt
  | Gt => Gt
  | Eq => Pos.compare_cont Eq m1 m2
  end = (mag m1 e1 ?= mag m2 e2).
Proof.
  intros Hb1 Hb2. destruct (Z.compare_spec e1 e2) as [->|Hlt|Hgt].
  - destruct (bounded_canonical _ _ Hb2) as [_ He].
    unfold mag. rewrite <- Zmult_compare_compat_r by lia. reflexivity.
  - symmetry. apply Z.compare_lt_iff. by apply bounded_exponent_lt.
  - symmetry. apply Z.compare_gt_iff. by apply bounded_exponent_lt.
Qed.

Lemma SFltb_ext x y :
  valid x = true -> valid y = true ->
  not_nan x = true -> not_nan y = true ->
  SFltb x y = (ext x <? ext y).
Proof.
  intros Hx Hy Nx Ny. unfold SFltb.
  assert (0 < big) by (by vm_compute).
  destruct x as [sx|sx| |sx mx ex], y as [sy|sy| |sy my ey]; try done;
    cbn [valid valid_binary] in Hx, Hy;
    try pose proof (bounded_mag _ _ Hx) as [Bx _];
    try pose proof (bounded_mag _ _ Hy) as [By _];
    try (destruct sx); try (destruct sy);
    cbn [SFcompare ext cond_Zopp]; unfold mag in *;
    try (symmetry; apply Z.ltb_lt; lia);
    try (symmetry; apply Z.ltb_ge; lia);
    fold (mag mx ex); fold (mag my ey).
  - (* two negative finite values *)
    unfold Z.ltb. rewrite Z.compare_opp, (Z.compare_antisym (mag mx ex)).
    rewrite <- (compare_mag mx ex my ey) by done.
    by destruct (ex ?= ey).
  - (* two positive finite values *)
    unfold Z.ltb. by rewrite <- compare_mag.
Qed.

(** ** Addition and subtraction round the exact result *)

Lemma rnd_0 : rnd 0 = 0.
Proof. reflexivity. Qed.

Lemma rnd_ext x : valid x = true -> finite x = true -> rnd (ext x) = ext x.
Proof.
  destruct x as [s|s| |s m e]; try done; intros Hv _.
  cbn [valid valid_binary] in Hv. destruct (bounded_mag m e Hv) as [Hm Hr].
  cbn [ext]. fold (mag m e). destruct s; cbn [cond_Zopp].
  - rewrite rnd_opp. f_equal. unfold rnd.
    destruct (Z.ltb_spec (mag m e) 0); [lia|done].
  - unfold rnd. destruct (Z.ltb_spec (mag m e) 0); [lia|done].
Qed.

Lemma shl_align_value m e ez :
  -149 <= ez <= e ->
  Zpos (fst (shl_align m e ez)) * 2 ^ (ez + 149) = Zpos m * 2 ^ (e + 149).
Proof.
  intros He. unfold shl_align. destruct (ez - e) as [|p|d] eqn:Hd; cbn [fst].
  - do 2 f_equal. lia.
  - lia.
  - rewrite pos_iter_xO, <- Z.mul_assoc, <- Z.pow_add_r by lia.
    do 2 f_equal. lia.
Qed.

Lemma binary_normalize_ext M e :
  -149 <= e ->
  let x := binary_normalize prec emax M e false in
  ext x = rnd (M * 2 ^ (e + 149)) /\ valid x = true /\ not_nan x = true.
Proof.
  intros He. assert (Hp : 0 < 2 ^ (e + 149)) by lia.
  destruct M as [|p|p]; cbn [binary_normalize].
  - by rewrite Z.mul_0_l.
  - destruct (binary_round_rnd false p e He) as (v & Hv & Hr & Hto).
    destruct (rounds_to_ext _ _ _ Hto) as (-> & ? & ?).
    split; [|done]. cbn [cond_Zopp]. rewrite <- Hr. unfold rnd.
    destruct (Z.ltb_spec (Zpos p * 2 ^ (e + 149)) 0); [lia|done].
  - destruct (binary_round_rnd true p e He) as (v & Hv & Hr & Hto).
    destruct (rounds_to_ext _ _ _ Hto) as (-> & ? & ?).
    split; [|done]. cbn [cond_Zopp]. rewrite <- Hr. unfold rnd.
    destruct (Z.ltb_spec (Zneg p * 2 ^ (e + 149)) 0); [|lia].
    do 2 f_equal. lia.
Qed.

Lemma ext_aligned s m e ez :
  -149 <= ez <= e ->
  cond_Zopp s (Zpos (fst (shl_align m e ez))) * 2 ^ (ez + 149)
  = ext (S754_finite s m e).
Proof.
  intros He. pose proof (shl_align_value m e ez He) as Hv.
  destruct s; cbn [cond_Zopp ext]; lia.
Qed.

Lemma SFadd_ext x y :
  valid x = true -> valid y = true -> finite x = true -> finite y = true ->
  ext (SFadd prec emax x y) = rnd (ext x + ext y)
  /\ valid (SFadd prec emax x y) = true
  /\ not_nan (SFadd prec emax x y) = true.
Proof.
  intros Hx Hy Fx Fy.
  destruct x as [sx|sx| |sx mx ex], y as [sy|sy| |sy my ey]; try done.
  - by destruct sx, sy.
  - cbn [SFadd]. rewrite Z.add_0_l, rnd_ext by done. done.
  - cbn [SFadd]. change (ext (S754_zero sy)) with 0.
    rewrite Z.add_0_r, rnd_ext by done. done.
  - cbn [SFadd]. cbn [valid valid_binary] in Hx, Hy.
    destruct (bounded_canonical _ _ Hx) as [_ Hex].
    destruct (bounded_canonical _ _ Hy) as [_ Hey].
    set (ez := Z.min ex ey).
    destruct (binary_normalize_ext
                (cond_Zopp sx (Zpos (fst (shl_align mx ex ez)))
                 + cond_Zopp sy (Zpos (fst (shl_align my ey ez)))) ez
                ltac:(lia)) as (He & Hv & Hn).
    split; [|done]. rewrite He. f_equal.
    rewrite Z.mul_add_distr_r, !ext_aligned by lia. done.
Qed.

Lemma SFsub_ext x y :
  valid x = true -> valid y = true -> finite x = true -> finite y = true ->
  ext (SFsub prec emax x y) = rnd (ext x - ext y)
  /\ valid (SFsub prec emax x y) = true
  /\ not_nan (SFsub prec emax x y) = true.
Proof.
  intros Hx Hy Fx Fy.
  destruct x as [sx|sx| |sx mx ex], y as [sy|sy| |sy my ey]; try done.
  - by destruct sx, sy.
  - cbn [SFsub]. change (ext (S754_zero sx)) with 0. rewrite Z.sub_0_l.
    rewrite rnd_opp, rnd_ext by done.
    split; [|done]. by destruct sy; cbn [ext negb cond_Zopp]; lia.
  - cbn [SFsub]. change (ext (S754_zero sy)) with 0.
    rewrite Z.sub_0_r, rnd_ext by done. done.
  - cbn [SFsub]. cbn [valid valid_binary] in Hx, Hy.
    destruct (bounded_canonical _ _ Hx) as [_ Hex].
    destruct (bounded_canonical _ _ Hy) as [_ Hey].
    set (ez := Z.min ex ey).
    destruct (binary_normalize_ext
                (cond_Zopp sx (Zpos (fst (shl_align mx ex ez)))
                 - cond_Zopp sy (Zpos (fst (shl_align my ey ez)))) ez
                ltac:(lia)) as (He & Hv & Hn).
    split; [|done]. rewrite He. f_equal.
    rewrite Z.mul_sub_distr_r, !ext_aligned by lia. done.
Qed.

(** ** Far apart in the program's arithmetic *)

(** If [20 + s < len] as the program computes it, then [len - s < 20]
    is false as the program computes it. *)
Lemma far_law len s :
  valid len = true -> valid s = true ->
  SFltb (SFadd prec emax c20 s) len = true ->
  SFltb (SFsub prec emax len s) c20 = false.
Proof.
  intros Hl Hs H.
  assert (Hc : valid c20 = true) by reflexivity.
  destruct (finite len) eqn:Fl; [destruct (finite s) eqn:Fs|].
  - (* both finite: the exact values decide *)
    destruct (SFadd_ext c20 s Hc Hs eq_refl Fs) as (Ea & Va & Na).
    destruct (SFsub_ext len s Hl Hs Fl Fs) as (Ed & Vd & Nd).
    assert (Nl : not_nan len = true) by (by destruct len).
    rewrite SFltb_ext in H by done. apply Z.ltb_lt in H.
    rewrite SFltb_ext by done. apply Z.ltb_ge.
    rewrite Ea in H. rewrite Ed.
    rewrite <- (rnd_ext c20) by done.
    apply rnd_mono.
    destruct (Z.le_gt_cases (ext c20) (ext len - ext s)) as [|Hlt]; [done|].
    exfalso.
    pose proof (rnd_mono (ext len) (ext c20 + ext s) ltac:(lia)) as Hm.
    rewrite (rnd_ext len) in Hm by done. lia.
  - (* a finite length, a radius sum that is not finite *)
    unfold c20 in *.
    destruct s as [?|[]| |? ? ?]; try done;
      destruct len as [[]|[]| |[] ? ?]; try done.
  - (* a length that is not finite *)
    unfold c20 in *.
    destruct len as [?|[]| |? ? ?]; try done;
      first [ by destruct s as [[]|[]| |[] ? ?]
            | by destruct (SFadd prec emax _ s) as [[]|[]| |[] ? ?] ].
Qed.

(** ** Every rounded value is valid *)

Lemma shr_iter_m m r s n :
  0 <= m ->
  shr_m (Pos.iter shr_1 (Build_shr_record m r s) n) = m / 2 ^ Zpos n.
Proof.
  intros Hm. revert r s. induction n as [|n IH] using Pos.peano_ind; intros r s.
  - change (Pos.iter shr_1 ?x 1) with (shr_1 x).
    by rewrite shr_1_spec, Z.pow_1_r.
  - rewrite Pos.iter_succ.
    destruct (Pos.iter shr_1 _ n) as [m' r' s'] eqn:E.
    pose proof (IH r s) as IH'. rewrite E in IH'. cbn [shr_m] in IH'.
    rewrite shr_1_spec by (rewrite IH'; apply Z.div_pos; lia).
    cbn [shr_m]. rewrite IH', Pos2Z.inj_succ, Z.pow_succ_r by lia.
    rewrite Z.div_div by lia. f_equal. lia.
Qed.

Lemma shr_m_of_loc m l : shr_m (shr_record_of_loc m l) = m.
Proof. by destruct l as [|[]]. Qed.

Lemma round_nearest_even_step m l :
  round_nearest_even m l = m \/ round_nearest_even m l = m + 1.
Proof. destruct l as [|[]]; simpl; auto. destruct (Z.even m); auto. Qed.

Lemma Zdigits2_spec q : 0 < q -> 2 ^ (Zdigits2 q - 1) <= q < 2 ^ Zdigits2 q.
Proof.
  intros Hq. rewrite Zdigits2_log2 by done.
  replace (Z.log2 q + 1 - 1) with (Z.log2 q) by lia.
  apply (Z.log2_spec q Hq).
Qed.

Lemma Zdigits2_unique q d : 2 ^ (d - 1) <= q < 2 ^ d -> 0 < d -> Zdigits2 q = d.
Proof.
  intros Hq Hd. assert (0 < q) by lia.
  rewrite Zdigits2_log2 by done. rewrite (Z.log2_unique q (d - 1)); [lia|lia|].
  by replace (Z.succ (d - 1)) with d by lia.
Qed.

Lemma Zdigits2_pos_pos q : 0 < q -> 0 < Zdigits2 q.
Proof.
  intros Hq. rewrite Zdigits2_log2 by done.
  pose proof (Z.log2_nonneg q). lia.
Qed.

Lemma canonical_valid s m E :
  0 < m -> fexp prec emax (Zdigits2 m + E) = E ->
  valid match m with
        | 0 => S754_zero s
        | Zpos p => if E <=? emax - prec then S754_finite s p E
                    else S754_infinity s
        | Zneg _ => S754_nan
        end = true.
Proof.
  intros Hm Hc. destruct m as [|p|p]; try lia.
  destruct (E <=? emax - prec) eqn:HE; [|done].
  cbn [valid valid_binary]. unfold bounded, canonical_mantissa.
  cbn [Zdigits2] in Hc. by rewrite Hc, Z.eqb_refl, HE.
Qed.

(** After the first shift the significand [q] sits at its canonical
    exponent [E]; rounding to nearest adds at most one, and a carry is
    shifted out once more. *)
Lemma after_rounding_valid s q E l :
  (q = 0 /\ E = -149) \/ (0 < q /\ fexp prec emax (Zdigits2 q + E) = E) ->
  valid (let '(mrs, e2) :=
           shr_fexp prec emax (round_nearest_even q l) E loc_Exact in
         match shr_m mrs with
         | 0 => S754_zero s
         | Zpos m => if e2 <=? emax - prec then S754_finite s m e2
                     else S754_infinity s
         | Zneg _ => S754_nan
         end) = true.
Proof.
  intros Hc.
  pose proof (round_nearest_even_step q l) as Hm1.
  set (m1 := round_nearest_even q l) in *.
  unfold shr_fexp. cbn [shr_record_of_loc].
  destruct (Z.eq_dec m1 0) as [Hz|Hne].
  { rewrite Hz. destruct (_ - E) as [|n|n]; cbn [shr]; try done.
    by rewrite iter_pos_iter, shr_iter_m, Z.div_0_l by lia. }
  assert (Hpos : 0 < m1) by lia.
  pose proof (Zdigits2_spec m1 Hpos) as Hd1.
  pose proof (Zdigits2_pos_pos m1 Hpos) as Hd1p.
  destruct (Z.eq_dec (fexp prec emax (Zdigits2 m1 + E)) E) as [Heq|Hneq].
  { rewrite Heq, Z.sub_diag, shr_zero. cbn [shr_m]. by apply canonical_valid. }
  (* a carry into a new digit, in the normal range *)
  destruct Hc as [[-> ->]|[Hq Hc]].
  { assert (m1 = 1) as Hm by lia. rewrite Hm in Hneq. done. }
  pose proof (Zdigits2_spec q Hq) as Hdq.
  pose proof (Zdigits2_pos_pos q Hq) as Hdqp.
  rewrite fexp_eq in Hc, Hneq.
  assert (Hcarry : m1 = 2 ^ Zdigits2 q /\ Zdigits2 m1 = Zdigits2 q + 1).
  { destruct (Z.eq_dec (Zdigits2 m1) (Zdigits2 q)) as [E1|E1].
    { rewrite E1 in Hneq. lia. }
    assert (Hm : m1 = q + 1) by (destruct Hm1 as [Hm|Hm]; [by rewrite Hm in E1|done]).
    assert (Hmono : Zdigits2 q <= Zdigits2 m1).
    { rewrite !Zdigits2_log2 by lia.
      pose proof (Z.log2_le_mono q m1 ltac:(lia)). lia. }
    assert (Hge : 2 ^ Zdigits2 q <= m1).
    { eapply Z.le_trans; [|apply Hd1]. apply Z.pow_le_mono_r; lia. }
    assert (Hle : m1 <= 2 ^ Zdigits2 q) by lia.
    assert (Hm' : m1 = 2 ^ Zdigits2 q) by lia.
    split; [done|]. apply Zdigits2_unique; [|lia].
    replace (Zdigits2 q + 1 - 1) with (Zdigits2 q) by lia.
    rewrite Hm'. split; [lia|]. apply Z.pow_lt_mono_r; lia. }
  destruct Hcarry as [Hm Hd]. rewrite Hd in *.
  rewrite (fexp_eq (Zdigits2 q + 1 + E)).
  assert (Hdq24 : Zdigits2 q = 24) by lia.
  replace (Z.max (Zdigits2 q + 1 + E - 24) (-149) - E) with 1 by lia.
  cbn [shr]. rewrite iter_pos_iter, shr_iter_m by lia.
  rewrite Hm, Hdq24. change (2 ^ 24 / 2 ^ 1) with (Zpos (2 ^ 23)).
  destruct (E + 1 <=? emax - prec) eqn:HE; [|done].
  unfold valid. cbn [valid_binary]. unfold bounded, canonical_mantissa.
  change (Z.pos (digits2_pos (2 ^ 23))) with 24.
  rewrite fexp_eq, HE.
  replace (Z.max (24 + (E + 1) - 24) (-149)) with (E + 1) by lia.
  by rewrite Z.eqb_refl.
Qed.

Lemma binary_round_aux_valid s m e l :
  0 < m -> e <= fexp prec emax (Zdigits2 m + e) ->
  valid (binary_round_aux prec emax s m e l) = true.
Proof.
  intros Hm He. unfold binary_round_aux.
  pose proof (Zdigits2_spec m Hm) as Hd.
  pose proof (Zdigits2_pos_pos m Hm) as Hdp.
  set (E := fexp prec emax (Zdigits2 m + e)) in *.
  assert (HE : E = Z.max (Zdigits2 m + e - 24) (-149)) by apply fexp_eq.
  destruct (shr_fexp prec emax m e l) as [mrs' e'] eqn:H1.
  assert (Hfirst : e' = E
            /\ ((shr_m mrs' = 0 /\ E = -149)
                \/ (0 < shr_m mrs'
                    /\ fexp prec emax (Zdigits2 (shr_m mrs') + E) = E))).
  { unfold shr_fexp in H1. fold E in H1.
    destruct (E - e) as [|n|n] eqn:Hn; try lia.
    - rewrite shr_zero in H1. injection H1 as <- <-.
      rewrite shr_m_of_loc. split; [lia|]. right. split; [done|].
      replace e with E by lia. fold E. f_equal. lia.
    - cbn [shr] in H1. injection H1 as <- <-.
      split; [lia|].
      destruct (shr_record_of_loc m l) as [m0 r0 s0] eqn:Hrec.
      assert (m0 = m) as -> by (by rewrite <- (shr_m_of_loc m l), Hrec).
      rewrite iter_pos_iter, shr_iter_m by lia.
      set (q := m / 2 ^ Zpos n).
      assert (Hq0 : 0 <= q) by (apply Z.div_pos; lia).
      destruct (Z.eq_dec q 0) as [Hz|Hz].
      + left. split; [done|].
        (* nothing is left of the significand: the range is subnormal *)
        destruct (Z.eq_dec E (-149)) as [|HnE]; [done|]. exfalso.
        assert (Hn24 : Zpos n = Zdigits2 m - 24) by lia.
        assert (2 ^ 23 <= q).
        { apply Z.div_le_lower_bound; [lia|].
          rewrite <- Z.pow_add_r by lia.
          replace (Zpos n + 23) with (Zdigits2 m - 1) by lia. lia. }
        lia.
      + right. split; [lia|].
        assert (Hdq : Zdigits2 q = Zdigits2 m - Zpos n).
        { assert (Zpos n < Zdigits2 m).
          { destruct (Z.lt_ge_cases (Zpos n) (Zdigits2 m)) as [|Hge]; [done|].
            exfalso. apply Hz. apply Z.div_small. split; [lia|].
            eapply Z.lt_le_trans; [apply Hd|]. apply Z.pow_le_mono_r; lia. }
          apply Zdigits2_unique; [|lia]. split.
          - apply Z.div_le_lower_bound; [lia|].
            rewrite <- Z.pow_add_r by lia.
            replace (Zpos n + (Zdigits2 m - Zpos n - 1)) with (Zdigits2 m - 1) by lia.
            lia.
          - apply Z.div_lt_upper_bound; [lia|].
            rewrite <- Z.pow_add_r by lia.
            replace (Zpos n + (Zdigits2 m - Zpos n)) with (Zdigits2 m) by lia.
            lia. }
        rewrite Hdq, fexp_eq. lia. }
  destruct Hfirst as [-> Hc].
  exact (after_rounding_valid s (shr_m mrs') E (loc_of_shr_record mrs') Hc).
Qed.

(** The square root: its significand has the digits the exponent was
    chosen for. *)
Lemma sqrt_digits m' t :
  0 <= t -> 2 ^ (2 * t) <= m' -> t + 1 <= Zdigits2 (Z.sqrt m') /\ 0 < Z.sqrt m'.
Proof.
  intros Ht Hm.
  assert (Hsq : 2 ^ t <= Z.sqrt m').
  { apply Z.sqrt_le_square; [lia|lia|].
    rewrite <- Z.pow_add_r by lia. by replace (t + t) with (2 * t) by lia. }
  assert (Hpos : 0 < Z.sqrt m') by lia.
  split; [|done]. rewrite Zdigits2_log2 by done.
  pose proof (Z.log2_le_pow2 (Z.sqrt m') t Hpos) as [H _]. lia.
Qed.

Lemma SFsqrt_valid x : valid (SFsqrt prec emax x) = true.
Proof.
  destruct x as [s|[]| |[] m e]; try done.
  unfold SFsqrt, SFsqrt_core_binary.
  set (d := Zdigits2 (Zpos m)).
  set (e' := Z.min (fexp prec emax (Z.div2 (d + e + 1))) (Z.div2 e)).
  set (sh := e - 2 * e').
  assert (Hd : 0 < d) by (by apply Zdigits2_pos_pos).
  pose proof (Zdigits2_spec (Zpos m) ltac:(lia)) as Hm. fold d in Hm.
  assert (He'1 : e' <= Z.div2 e) by (unfold e'; lia).
  assert (He'2 : e' <= fexp prec emax (Z.div2 (d + e + 1))) by (unfold e'; lia).
  rewrite Z.div2_div in He'1. rewrite Z.div2_div in He'2.
  pose proof (Z.div_mod e 2 ltac:(lia)) as De.
  pose proof (Z.mod_pos_bound e 2 ltac:(lia)) as Re.
  assert (Hsh : 0 <= sh) by (unfold sh; lia).
  set (m' := match sh with
             | 0 => Zpos m
             | Zpos _ => Z.shiftl (Zpos m) sh
             | Zneg _ => 0
             end).
  assert (Hm' : m' = Zpos m * 2 ^ sh).
  { unfold m'. destruct sh as [|p|p] eqn:E; [lia| |lia].
    by rewrite Z.shiftl_mul_pow2 by lia. }
  pose proof (Z.sqrtrem_sqrt m') as Hq.
  destruct (Z.sqrtrem m') as [q r]. cbn [fst] in Hq. subst q.
  (* the digits of the root *)
  set (t := (d + sh - 1) / 2).
  pose proof (Z.div_mod (d + sh - 1) 2 ltac:(lia)) as Dt.
  pose proof (Z.mod_pos_bound (d + sh - 1) 2 ltac:(lia)) as Rt. fold t in Dt.
  assert (Ht : 0 <= t) by lia.
  assert (Hlow : 2 ^ (2 * t) <= m').
  { rewrite Hm'. eapply Z.le_trans; [apply (Z.pow_le_mono_r 2 (2 * t) (d - 1 + sh)); lia|].
    rewrite Z.pow_add_r by lia. apply Z.mul_le_mono_nonneg_r; lia. }
  destruct (sqrt_digits m' t Ht Hlow) as [Hdig Hpos].
  apply binary_round_aux_valid; [done|].
  eapply Z.le_trans; [apply He'2|]. rewrite !fexp_eq.
  pose proof (Z.div_mod (d + e + 1) 2 ltac:(lia)) as Dd.
  pose proof (Z.mod_pos_bound (d + e + 1) 2 ltac:(lia)) as Rd.
  assert ((d + e + 1) / 2 <= Zdigits2 (Z.sqrt m') + e'); [|lia].
  unfold sh in *. lia.
Qed.

(** ** Symmetry *)

Lemma SFadd_valid x y :
  valid x = true -> valid y = true -> valid (SFadd prec emax x y) = true.
Proof.
  intros Hx Hy. destruct (finite x) eqn:Fx, (finite y) eqn:Fy.
  - by apply SFadd_ext.
  - by destruct x as [[]|[]| |[] ? ?], y as [[]|[]| |[] ? ?].
  - by destruct x as [[]|[]| |[] ? ?], y as [[]|[]| |[] ? ?].
  - by destruct x as [[]|[]| |[] ? ?], y as [[]|[]| |[] ? ?].
Qed.

Lemma SFadd_comm x y : SFadd prec emax x y = SFadd prec emax y x.
Proof.
  destruct x as [[]|[]| |sx mx ex], y as [[]|[]| |sy my ey]; try done.
  cbn [SFadd]. by rewrite (Z.min_comm ey ex), Z.add_comm.
Qed.

Lemma binary_round_aux_opp s m e l :
  binary_round_aux prec emax (negb s) m e l
  = SFopp (binary_round_aux prec emax s m e l).
Proof.
  unfold binary_round_aux.
  destruct (shr_fexp prec emax m e l) as [mrs' e'].
  destruct (shr_fexp prec emax _ e' loc_Exact) as [mrs'' e''].
  destruct (shr_m mrs''); try done. by destruct (e'' <=? emax - prec).
Qed.

Lemma binary_round_opp s m e :
  binary_round prec emax (negb s) m e = SFopp (binary_round prec emax s m e).
Proof.
  unfold binary_round. destruct (shl_align _ _ _) as [mz ez].
  apply binary_round_aux_opp.
Qed.

Lemma binary_normalize_opp M e :
  binary_normalize prec emax (- M) e false = binary_normalize prec emax M e false
  \/ binary_normalize prec emax (- M) e false
     = SFopp (binary_normalize prec emax M e false).
Proof.
  destruct M as [|p|p]; [by left|right..].
  - apply (binary_round_opp false).
  - change (binary_round prec emax false p e
            = SFopp (binary_round prec emax (negb false) p e)).
    rewrite binary_round_opp.
    by destruct (binary_round prec emax false p e) as [[]|[]| |[] ? ?].
Qed.

Lemma SFsub_swap_finite sa ma ea sb mb eb :
  let a := S754_finite sa ma ea in
  let b := S754_finite sb mb eb in
  SFsub prec emax b a = SFsub prec emax a b
  \/ SFsub prec emax b a = SFopp (SFsub prec emax a b).
Proof.
  cbn [SFsub]. rewrite (Z.min_comm eb ea).
  set (A := cond_Zopp sa _). set (B := cond_Zopp sb _).
  replace (B - A) with (- (A - B)) by lia.
  apply binary_normalize_opp.
Qed.

Lemma SFsub_swap a b :
  SFsub prec emax b a = SFsub prec emax a b
  \/ SFsub prec emax b a = SFopp (SFsub prec emax a b).
Proof.
  destruct a as [sa|sa| |sa ma ea], b as [sb|sb| |sb mb eb];
    try apply SFsub_swap_finite;
    try destruct sa; try destruct sb; (by left) || (by right).
Qed.

Lemma SFmul_opp_square u :
  SFmul prec emax (SFopp u) (SFopp u) = SFmul prec emax u u.
Proof. by destruct u as [[]|[]| |[] m e]. Qed.

Lemma SFsub_square_sym a b :
  SFmul prec emax (SFsub prec emax b a) (SFsub prec emax b a)
  = SFmul prec emax (SFsub prec emax a b) (SFsub prec emax a b).
Proof.
  destruct (SFsub_swap a b) as [->| ->]; [done|apply SFmul_opp_square].
Qed.
End Rounding.

(** ** The visual range *)

Section VisualRange.
Local Open Scope flt_scope.

Lemma length_vsub_sym_binary32 (p q : Vec float) :
  length (p -^ q) = length (q -^ p).
Proof.
  unfold length, vsub. cbn [vx vy].
  change (SFsqrt prec emax
            (SFadd prec emax
               (SFmul prec emax (SFsub prec emax (vx p) (vx q))
                                (SFsub prec emax (vx p) (vx q)))
               (SFmul prec emax (SFsub prec emax (vy p) (vy q))
                                (SFsub prec emax (vy p) (vy q))))
          = SFsqrt prec emax
              (SFadd prec emax
                 (SFmul prec emax (SFsub prec emax (vx q) (vx p))
                                  (SFsub prec emax (vx q) (vx p)))
                 (SFmul prec emax (SFsub prec emax (vy q) (vy p))
                                  (SFsub prec emax (vy q) (vy p))))).
  by rewrite (SFsub_square_sym (vx p) (vx q)), (SFsub_square_sym (vy p) (vy q)).
Qed.

(** In binary32 they exclude each other too, roundings included: if
    [20 + (rA + rB) < len] holds of the computed values, then
    [len - (rA + rB) < 20] does not. *)
Lemma far_apart_not_near (b o : Boid float) :
  valid (mRadius b) = true -> valid (mRadius o) = true ->
  far_apart b o -> near b o = false /\ near o b = false.
Proof.
  intros Hb Ho Hf. unfold far_apart in Hf.
  assert (Hn : near b o = false).
  { apply (far_law (length (mPos o -^ mPos b)) (mRadius b + mRadius o)).
    - apply SFsqrt_valid.
    - by apply SFadd_valid.
    - exact Hf. }
  split; [done|]. rewrite <- Hn. unfold near, surface_distance.
  rewrite (length_vsub_sym_binary32 (mPos b)).
  change (mRadius o + mRadius b) with (SFadd prec emax (mRadius o) (mRadius b)).
  by rewrite SFadd_comm.
Qed.
End VisualRange.

(** ** binary32: the two branches of the speed limit *)

Section SpeedLimitBranches.
Local Open Scope flt_scope.


(** The three cases of the speed limit, as the program decides them. *)
Lemma speed_limit_binary32 (w : Vec float) :
  speed_limit w
  = if length w >? MAX_SPEED
    then vmul w (MAX_SPEED / (length w + SPEED_EPS))
    else if length w <? MIN_SPEED
         then vmul w (MIN_SPEED / (length w + SPEED_EPS))
         else w.
Proof. reflexivity. Qed.
End SpeedLimitBranches.

(** ** binary32: the speed limit *)

Section SpeedClamp.
Local Open Scope flt_scope.







End SpeedClamp.


(** ** binary32: where the speed leaves the bounds *)

Section SpeedCounter.
Local Open Scope flt_scope.




End SpeedCounter.

(** ** The order of the passes *)

Section Sequential.
Context {F : Type} `{Scalar F}.
Variable powf : F -> F -> F.
Variable noise : nat -> F.

(** After [i] passes the first [i] boids are as [update()] will leave
    them and the others are as it found them. *)
Lemma run_prefix dest k (bs : list (Boid F)) i n :
  i <= n <= List.length bs ->
  (run powf noise dest k bs i).2
  = take i (run powf noise dest k bs n).2 ++ drop i bs.
Proof.
  intros Hi. apply list_eq. intros j.
  assert (Hl : List.length (take i (run powf noise dest k bs n).2) = i).
  { rewrite length_take, run_length. lia. }
  destruct (decide (j < i)) as [Hj|Hj].
  - rewrite lookup_app_l by lia. rewrite lookup_take_lt by done.
    rewrite run_lookup_lt by done. symmetry. apply run_lookup_lt. lia.
  - rewrite lookup_app_r by lia. rewrite Hl, lookup_drop.
    rewrite run_lookup_ge by lia. f_equal. lia.
Qed.

(** X3.  [update()] works in place, one boid after the other: the pass of
    the boid at index [i] reads the boids before it as their own passes
    have just left them, moved already, and the boids from [i] on as they
    were before the call.  So the first boid is steered by the old state
    of all the others and the last by the new state of all the others. *)
Theorem update_in_place k (fl : Flock F) i b :
  mBoids fl !! i = Some b ->
  mBoids (update powf noise k fl).2 !! i
  = Some (update_boid powf noise (mDest fl) (k + 2 * i) i
            (take i (mBoids (update powf noise k fl).2) ++ drop i (mBoids fl))
            b).
Proof.
  intros Hb. rewrite (update_lookup _ _ _ _ _ _ Hb). do 2 f_equal.
  apply run_prefix. apply lookup_lt_Some in Hb. lia.
Qed.

Lemma others_delete i j (bs : list (Boid F)) :
  others i j bs = if decide (j <= i) then delete (i - j) bs else bs.
Proof.
  revert j. induction bs as [|o bs IH]; intros j; cbn [others].
  - by destruct (decide (j <= i)).
  - rewrite IH. destruct (Nat.eqb_spec i j) as [->|Hne].
    + rewrite decide_False by lia. rewrite decide_True by lia.
      by rewrite Nat.sub_diag.
    + destruct (decide (j <= i)) as [Hle|Hgt].
      * rewrite decide_True by lia.
        replace (i - j) with (S (i - S j)) by lia. done.
      * by rewrite decide_False by lia.
Qed.

(** X4.  The inner loop visits every boid of the flock but the one whose
    pass it is, each once and in the order of [mBoids]: a boid is told
    from the others by its place in the flock, so one that equals it in
    every field is visited.  A boid of a flock of [n] therefore counts at
    most [n - 1] neighbours, never itself. *)
Theorem scan_skips_self i (b : Boid F) (bs : list (Boid F)) a :
  scan powf i b 0 bs a = foldl (fun a o => visit powf b o a) a (delete i bs)
  /\ (i < List.length bs ->
      (0 <= neighbourhood_size (scan powf i b 0 bs acc0)
       <= Z.of_nat (List.length bs) - 1)%Z).
Proof.
  assert (Ho : others i 0 bs = delete i bs).
  { rewrite others_delete, decide_True by lia. by rewrite Nat.sub_0_r. }
  split; [by rewrite scan_others, Ho|].
  intros Hi. rewrite scan_others, Ho, foldl_visit_size. cbn [acc0 neighbourhood_size].
  pose proof (List.filter_length_le (near b) (delete i bs)) as Hf.
  rewrite length_delete in Hf by (by apply lookup_lt_is_Some_2).
  lia.
Qed.
End Sequential.

Lemma update_in_place_witness :
  mBoids (update sample_pow no_noise 0 two_boids).2 !! 1
  = Some (update_boid sample_pow no_noise (mDest two_boids) (0 + 2 * 1) 1
            (take 1 (mBoids (update sample_pow no_noise 0 two_boids).2)
             ++ drop 1 (mBoids two_boids))
            east_boid).
Proof.
  exact (update_in_place sample_pow no_noise 0 two_boids 1 east_boid eq_refl).
Defined.

(** ** binary32: who is counted as a neighbour during an update *)

Section NeighboursAsRead.
Local Open Scope flt_scope.

(** A pass whose boid is far from all the others it reads ends with the
    accumulators it started with. *)
Lemma scan_far powf i (b : Boid float) bs :
  valid (mRadius b) = true ->
  Forall (fun o => valid (mRadius o) = true /\ far_apart b o) (delete i bs) ->
  scan powf i b 0 bs acc0 = acc0.
Proof.
  intros Hb Hfar. rewrite scan_others, others_delete, decide_True by lia.
  rewrite Nat.sub_0_r. apply foldl_visit_far.
  eapply Forall_impl; [exact Hfar|]. intros o [Ho Hf].
  by destruct (far_apart_not_near b o Hb Ho Hf).
Qed.

(** With no neighbour counted the boid is steered as if it were alone in
    the flock. *)
Lemma update_boid_alone powf noise dest k i bs (b : Boid float) :
  scan powf i b 0 bs acc0 = acc0 ->
  update_boid powf noise dest k i bs b = update_boid powf noise dest k 0 [b] b.
Proof. intros Hs. unfold update_boid, steer. by rewrite Hs. Qed.

(** C5, amended.  In binary32, for the boid [b] at every index [i] of the
    flock, [update()] runs the pass of [b] on the flock as it is at that
    moment ([seen]): the boids before [b] as their own passes of this call
    have left them, steered and moved, and the boids from [b] on as they
    were at the call.  In that pass another boid [o] is counted as a
    neighbour exactly when the computed distance between the surfaces,
    [|o.pos - b.pos| - (b.r + o.r)], is below VISUAL_RANGE: then the count
    grows by one and the velocity and position of [o] are added to the
    sums, and otherwise the accumulators stay as they were; the count at
    the end of the pass is the number of other boids of [seen] that pass
    the test.  So for two boids whose computed centre distance, in the
    states the pass reads, exceeds VISUAL_RANGE plus the two radii
    ([far_apart]), neither changes the other's accumulators; and a boid
    that is that far from every other boid its pass reads keeps the count
    0 and is updated as if it were alone in the flock.  The distance at the
    call does not decide it. *)
Theorem neighbour_within_range_as_read powf noise k (fl : Flock float) i b :
  mBoids fl !! i = Some b ->
  exists seen,
    seen = take i (mBoids (update powf noise k fl).2) ++ drop i (mBoids fl)
    /\ mBoids (update powf noise k fl).2 !! i
       = Some (update_boid powf noise (mDest fl) (k + 2 * i) i seen b)
    /\ (forall o a,
          neighbourhood_size (visit powf b o a)
          = (neighbourhood_size a + (if near b o then 1 else 0))%Z
          /\ (near b o = true ->
              avg_vel (visit powf b o a) = avg_vel a +^ mVel o
              /\ avg_pos (visit powf b o a) = avg_pos a +^ mPos o)
          /\ (near b o = false -> visit powf b o a = a))
    /\ scan powf i b 0 seen acc0
       = foldl (fun a o => visit powf b o a) acc0 (delete i seen)
    /\ neighbourhood_size (scan powf i b 0 seen acc0)
       = Z.of_nat (List.length (List.filter (near b) (delete i seen)))
    /\ (forall o,
          valid (mRadius b) = true -> valid (mRadius o) = true ->
          far_apart b o ->
          forall a, visit powf b o a = a /\ visit powf o b a = a)
    /\ (valid (mRadius b) = true ->
        Forall (fun o => valid (mRadius o) = true /\ far_apart b o)
               (delete i seen) ->
        scan powf i b 0 seen acc0 = acc0
        /\ mBoids (update powf noise k fl).2 !! i
           = Some (update_boid powf noise (mDest fl) (k + 2 * i) 0 [b] b)).
Proof.
  intros Hb. eexists. split; [reflexivity|].
  assert (Hi : i < List.length (mBoids fl)) by (by eapply lookup_lt_Some).
  assert (Hseen : (run powf noise (mDest fl) k (mBoids fl) i).2
                  = take i (mBoids (update powf noise k fl).2)
                    ++ drop i (mBoids fl)).
  { apply run_prefix. lia. }
  set (seen := take i _ ++ drop i _) in *.
  assert (Hup : mBoids (update powf noise k fl).2 !! i
                = Some (update_boid powf noise (mDest fl) (k + 2 * i) i seen b)).
  { rewrite (update_lookup _ _ _ _ _ _ Hb). by rewrite Hseen. }
  assert (Hdel : others i 0 seen = delete i seen).
  { rewrite others_delete, decide_True by lia. by rewrite Nat.sub_0_r. }
  split; [exact Hup|]. split; [|split; [|split; [|split]]].
  - intros o a. split; [apply visit_size|]. split; [|apply visit_far].
    intros Hn. by rewrite visit_near.
  - by rewrite scan_others, Hdel.
  - by rewrite scan_others, Hdel, foldl_visit_size.
  - intros o Hvb Hvo Hf a.
    destruct (far_apart_not_near b o Hvb Hvo Hf) as [Hn Hn'].
    by rewrite !visit_far.
  - intros Hvb Hfar. pose proof (scan_far powf i b seen Hvb Hfar) as Hs.
    split; [exact Hs|]. rewrite Hup. f_equal. by apply update_boid_alone.
Qed.
End NeighboursAsRead.

(** C5, as stated, fails.  Two boids of radius 2, the first at (0, 0) and
    the second at (24.5, 0), both at rest, the pointer at (100, 0), no
    noise: at the call their centres are 24.5 apart, more than VISUAL_RANGE
    plus the radii (24).  The pass of the first boid counts nobody, steers
    it to the velocity (0.75, 0) and moves it; the pass of the second boid
    then finds it at (0.75, 0), 19.75 from its surface, and counts it: its
    count is 1 and the position of the first boid is in its sum, whatever
    [std::pow] gives. *)
Lemma far_at_the_call_counted :
  far_apart approach_west approach_east
  /\ far_apart approach_east approach_west
  /\ mBoids approach_flock = [approach_west; approach_east]
  /\ forall powf,
       take 1 (mBoids (update powf no_noise 0 approach_flock).2)
       ++ drop 1 (mBoids approach_flock)
       = [pointer_boid_after; approach_east]
       /\ mBoids (update powf no_noise 0 approach_flock).2 !! 1
          = Some (update_boid powf no_noise (mDest approach_flock) 2 1
                    [pointer_boid_after; approach_east] approach_east)
       /\ near approach_east pointer_boid_after = true
       /\ neighbourhood_size
            (scan powf 1 approach_east 0
               [pointer_boid_after; approach_east] acc0) = 1%Z
       /\ avg_pos
            (scan powf 1 approach_east 0
               [pointer_boid_after; approach_east] acc0)
          = mPos pointer_boid_after.
Proof.
  split; [reflexivity|]. split; [reflexivity|]. split; [reflexivity|].
  intros powf.
  assert (Hrun : (run powf no_noise (mDest approach_flock) 0
                    (mBoids approach_flock) 1).2
                 = [pointer_boid_after; approach_east]) by (by vm_compute).
  assert (Hseen : take 1 (mBoids (update powf no_noise 0 approach_flock).2)
                  ++ drop 1 (mBoids approach_flock)
                  = [pointer_boid_after; approach_east]).
  { rewrite <- Hrun. symmetry. apply run_prefix. cbn. lia. }
  split; [exact Hseen|]. split.
  - rewrite (update_lookup powf no_noise 0 approach_flock 1 approach_east eq_refl).
    by rewrite Hrun.
  - split; [reflexivity|]. split.
    + cbn [scan Nat.eqb]. by rewrite visit_size.
    + cbn [scan Nat.eqb]. rewrite visit_near by reflexivity. reflexivity.
Qed.

Lemma neighbour_within_range_as_read_witness :
  Forall (fun o => valid (mRadius o) = true /\ far_apart east_boid o)
         (delete 1 (take 1 (mBoids (update sample_pow no_noise 0 apart_flock).2)
                    ++ drop 1 (mBoids apart_flock)))
  /\ exists seen,
       seen = take 1 (mBoids (update sample_pow no_noise 0 apart_flock).2)
              ++ drop 1 (mBoids apart_flock)
       /\ mBoids (update sample_pow no_noise 0 apart_flock).2 !! 1
          = Some (update_boid sample_pow no_noise (mDest apart_flock)
                    (0 + 2 * 1) 1 seen east_boid)
       /\ (forall o a,
             neighbourhood_size (visit sample_pow east_boid o a)
             = (neighbourhood_size a + (if near east_boid o then 1 else 0))%Z
             /\ (near east_boid o = true ->
                 avg_vel (visit sample_pow east_boid o a)
                 = (avg_vel a +^ mVel o)%flt
                 /\ avg_pos (visit sample_pow east_boid o a)
                    = (avg_pos a +^ mPos o)%flt)
             /\ (near east_boid o = false -> visit sample_pow east_boid o a = a))
       /\ scan sample_pow 1 east_boid 0 seen acc0
          = foldl (fun a o => visit sample_pow east_boid o a) acc0
              (delete 1 seen)
       /\ neighbourhood_size (scan sample_pow 1 east_boid 0 seen acc0)
          = Z.of_nat (List.length (List.filter (near east_boid) (delete 1 seen)))
       /\ (forall o,
             valid (mRadius east_boid) = true -> valid (mRadius o) = true ->
             far_apart east_boid o ->
             forall a, visit sample_pow east_boid o a = a
                       /\ visit sample_pow o east_boid a = a)
       /\ (valid (mRadius east_boid) = true ->
           Forall (fun o => valid (mRadius o) = true /\ far_apart east_boid o)
                  (delete 1 seen) ->
           scan sample_pow 1 east_boid 0 seen acc0 = acc0
           /\ mBoids (update sample_pow no_noise 0 apart_flock).2 !! 1
              = Some (update_boid sample_pow no_noise (mDest apart_flock)
                        (0 + 2 * 1) 0 [east_boid] east_boid)).
Proof.
  split.
  - set (l := delete 1 _). vm_compute in l. subst l.
    repeat constructor.
  - apply (neighbour_within_range_as_read sample_pow no_noise 0 apart_flock 1
             east_boid).
    reflexivity.
Defined.

(** ** binary32: neighbours are mutual *)

Section Mutual.
Local Open Scope flt_scope.

(** X5.  The test of line 100 gives the same answer for [b] looking at [o]
    and for [o] looking at [b], in binary32, roundings included: the
    squares of the differences, the sum of the radii and all that follows
    are the same values. *)
Theorem near_symmetric (b o : Boid float) : near b o = near o b.
Proof.
  unfold near, surface_distance.
  rewrite (length_vsub_sym_binary32 (mPos b)).
  change (mRadius o + mRadius b) with (SFadd prec emax (mRadius o) (mRadius b)).
  by rewrite SFadd_comm.
Qed.
End Mutual.

(** ** binary32: a boid that is NaN *)

Section NaNBoid.
Local Open Scope flt_scope.

Lemma length_has_nan (v : Vec float) :
  has_nan v = true -> length v = S754_nan.
Proof.
  unfold has_nan, length. destruct v as [x y]. cbn [vx vy].
  intros [Hx|Hy]%orb_prop.
  - by destruct x.
  - destruct y; try done. by rewrite fmul_nan_l, fadd_nan_r.
Qed.

Lemma vsub_has_nan_l (p q : Vec float) :
  has_nan p = true -> has_nan (p -^ q) = true.
Proof.
  unfold has_nan, vsub. cbn [vx vy]. intros [Hx|Hy]%orb_prop.
  - by destruct (vx p).
  - destruct (vy p); try done. cbn. apply orb_true_r.
Qed.

Lemma vsub_has_nan_r (p q : Vec float) :
  has_nan q = true -> has_nan (p -^ q) = true.
Proof.
  unfold has_nan, vsub. cbn [vx vy]. intros [Hx|Hy]%orb_prop.
  - destruct (vx q); try done. by rewrite fsub_nan_r.
  - destruct (vy q); try done. rewrite (fsub_nan_r (vy p)). apply orb_true_r.
Qed.

(** The test of line 100 fails as soon as one of the two positions has
    NaN in it: the length is NaN, the distance is NaN, and [NaN < 20] is
    false. *)
Lemma near_nan (b o : Boid float) :
  has_nan (mPos b) = true \/ has_nan (mPos o) = true -> near b o = false.
Proof.
  intros Hn. unfold near, surface_distance.
  rewrite length_has_nan.
  - by rewrite fsub_nan_l, fltb_nan_l.
  - destruct Hn; [by apply vsub_has_nan_r|by apply vsub_has_nan_l].
Qed.

Lemma vdiv_nan (v : Vec float) : vdiv v S754_nan = nan_vec.
Proof. unfold vdiv, nan_vec. by rewrite !fdiv_nan_r. Qed.

Lemma toDest_has_nan (dest pos : Vec float) :
  has_nan pos = true -> toDest dest pos = nan_vec.
Proof.
  intros Hn. unfold toDest, normalized.
  rewrite length_has_nan by (by apply vsub_has_nan_r).
  by rewrite vdiv_nan, vmul_nan_l.
Qed.

Lemma update_boid_has_nan powf noise dest k i bs (b : Boid float) :
  has_nan (mPos b) = true ->
  update_boid powf noise dest k i bs b
  = mkBoid nan_vec nan_vec (mRadius b) (mColor b).
Proof.
  intros Hn. apply update_boid_nan. unfold steer.
  by rewrite bias_nan_dest by (by apply toDest_has_nan).
Qed.

(** X6.  A boid whose position has NaN in it is seen by nobody and sees
    nobody: the test of line 100 is false in both directions, so it adds
    nothing to the sums or the count of any other boid, and its own pass
    ends with the accumulators at zero and the count at 0, whoever is
    near. *)
Theorem nan_boid_unseen (b o : Boid float) :
  has_nan (mPos o) = true ->
  (forall powf a, visit powf b o a = a /\ visit powf o b a = a)
  /\ (forall powf i bs, scan powf i o 0 bs acc0 = acc0).
Proof.
  intros Hn. split.
  - intros powf a. split; apply visit_far, near_nan; auto.
  - intros powf i bs. rewrite scan_others. apply foldl_visit_far.
    apply Forall_forall. intros x _. apply near_nan. by left.
Qed.

(** X7.  NaN is absorbing.  A boid whose position has NaN in one component
    leaves [update()] with NaN in both components of its velocity and of
    its position, whatever the destination, the other boids, [std::pow]
    and the generator give; so it is in the same state after every later
    [update()]. *)
Theorem nan_boid_stays powf noise k (fl : Flock float) i b :
  mBoids fl !! i = Some b -> has_nan (mPos b) = true ->
  mBoids (update powf noise k fl).2 !! i
  = Some (mkBoid nan_vec nan_vec (mRadius b) (mColor b))
  /\ forall k',
       mBoids (update powf noise k' (update powf noise k fl).2).2 !! i
       = Some (mkBoid nan_vec nan_vec (mRadius b) (mColor b)).
Proof.
  intros Hb Hn.
  assert (H1 : mBoids (update powf noise k fl).2 !! i
               = Some (mkBoid nan_vec nan_vec (mRadius b) (mColor b))).
  { rewrite (update_lookup _ _ _ _ _ _ Hb). by rewrite update_boid_has_nan. }
  split; [done|]. intros k'.
  rewrite (update_lookup _ _ _ _ _ _ H1). by rewrite update_boid_has_nan.
Qed.
End NaNBoid.

Lemma nan_boid_unseen_witness :
  (forall powf a,
      visit powf west_boid nan_boid a = a
      /\ visit powf nan_boid west_boid a = a)
  /\ (forall powf i bs, scan powf i nan_boid 0 bs acc0 = acc0).
Proof. exact (nan_boid_unseen west_boid nan_boid eq_refl). Defined.

Lemma nan_boid_stays_witness :
  mBoids (update sample_pow no_noise 0 (mFlock nan_app)).2 !! 0
  = Some (mkBoid nan_vec nan_vec (mRadius nan_boid) (mColor nan_boid))
  /\ forall k',
       mBoids (update sample_pow no_noise k'
                 (update sample_pow no_noise 0 (mFlock nan_app)).2).2 !! 0
       = Some (mkBoid nan_vec nan_vec (mRadius nan_boid) (mColor nan_boid)).
Proof.
  exact (nan_boid_stays sample_pow no_noise 0 (mFlock nan_app) 0 nan_boid
           eq_refl eq_refl).
Defined.

(** ** Drawing *)

Section DrawingFacts.
Context {F : Type} `{Scalar F}.

(** [Flock::draw] passes one shape per boid to the window, in the order
    of [mBoids], and touches nothing else. *)
Lemma Flock_draw_shapes (fl : Flock F) (w : RenderWindow F) :
  Flock_draw fl w
  = mkWindow (isOpen w) (getSize w) (drawn w ++ (mCirc <$> mBoids fl))
             (displayed w).
Proof.
  unfold Flock_draw. destruct fl as [bs d]. cbn [mBoids].
  revert w. induction bs as [|b bs IH]; intros w; cbn [foldl fmap list_fmap].
  - rewrite app_nil_r. by destruct w.
  - rewrite IH. cbn. by rewrite <- app_assoc.
Qed.
End DrawingFacts.

(** ** binary32: the push of a neighbour *)

Section Push.
Local Open Scope flt_scope.

Lemma SFmul_square_sign (x : float) :
  is_nan (x * x) = true \/ has_sign false (x * x).
Proof.
  destruct x as [s|s| |s m e]; cbn; [right; by destruct s..|by left|].
  right. rewrite Bool.xorb_nilpotent. by apply binary_round_aux_sign.
Qed.

Lemma SFadd_nonneg (x y : float) :
  has_sign false x -> has_sign false y -> has_sign false (x + y).
Proof.
  destruct x as [sx|sx| |sx mx ex], y as [sy|sy| |sy my ey]; cbn;
    try done; intros -> ->; try done.
  cbn [cond_Zopp].
  destruct (shl_align mx ex _) as [ma ea], (shl_align my ey _) as [mb eb].
  cbn [fst]. change (Z.pos ma + Z.pos mb)%Z with (Z.pos (ma + mb)).
  unfold binary_normalize, binary_round.
  destruct (shl_align _ _ _) as [mz ez]. by apply binary_round_aux_sign.
Qed.

Lemma SFsqrt_nonneg (q : float) :
  has_sign false q -> has_sign false (SFsqrt prec emax q).
Proof.
  destruct q as [s|s| |s m e]; cbn [SFsqrt has_sign]; try done; intros ->;
    try done.
  unfold SFsqrt_core_binary.
  set (m' := match _ with 0%Z => _ | Zpos _ => _ | Zneg _ => _ end).
  pose proof (Z.sqrtrem_sqrt m') as Hq.
  destruct (Z.sqrtrem m') as [q r]. cbn [fst] in Hq. subst q.
  apply binary_round_aux_sign. apply Z.sqrt_nonneg.
Qed.

(** A length is NaN, [+0], positive or [+inf]: never [-0]. *)
Lemma length_sign (v : Vec float) :
  is_nan (length v) = true \/ has_sign false (length v).
Proof.
  unfold length.
  destruct (SFmul_square_sign (vx v)) as [Hx|Hx].
  { left. destruct (vx v * vx v); try done. }
  destruct (SFmul_square_sign (vy v)) as [Hy|Hy].
  { left. destruct (vy v * vy v); try done.
    by destruct (vx v * vx v). }
  right. apply SFsqrt_nonneg. by apply SFadd_nonneg.
Qed.

(** The length the pass computed for a boid it counts is [+0] or
    finite and positive. *)
Lemma near_length (b o : Boid float) :
  near b o = true ->
  length (mPos o -^ mPos b) = S754_zero false
  \/ exists m e, length (mPos o -^ mPos b) = S754_finite false m e.
Proof.
  unfold near, surface_distance.
  destruct (length_sign (mPos o -^ mPos b)) as [H|H]; revert H;
    generalize (mRadius b + mRadius o);
    destruct (length (mPos o -^ mPos b)) as [s|s| |s m e];
    cbn [is_nan has_sign]; try done; intros r Hs; subst; eauto.
  by destruct r as [|[]| |].
Qed.

Lemma SFdiv_core_nonneg m1 e1 m2 e2 :
  (0 < m1 -> 0 < m2 ->
   0 <= (SFdiv_core_binary prec emax m1 e1 m2 e2).1.1)%Z.
Proof.
  intros H1 H2. unfold SFdiv_core_binary.
  set (e' := Z.min _ _). set (s := (e1 - e2 - e')%Z).
  set (m' := match s with Z0 => _ | Zpos _ => _ | Zneg _ => _ end).
  assert (Hm : (0 <= m')%Z).
  { subst m'. destruct s; try lia. apply Z.shiftl_nonneg. lia. }
  pose proof (Z.div_pos m' m2 Hm H2) as Hq. unfold Z.div in Hq.
  change IntDef.Z.div_eucl with Z.div_eucl.
  by destruct (Z.div_eucl m' m2) as [q r].
Qed.

(** A finite value divided by a divisor that is not negative keeps its
    sign and is not NaN; it may underflow to a zero and overflow to an
    infinity. *)
Lemma SFdiv_sign sx mx ex (d : float) :
  has_sign false d ->
  has_sign sx (SFdiv prec emax (S754_finite sx mx ex) d).
Proof.
  destruct d as [s|s| |s m e]; cbn [SFdiv has_sign]; try done; intros ->;
    rewrite ?Bool.xorb_false_r; try done.
  pose proof (SFdiv_core_nonneg (Zpos mx) ex (Zpos m) e eq_refl eq_refl) as H.
  destruct (SFdiv_core_binary _ _ _ _ _ _) as [[mz ez] lz]. cbn in H.
  by apply binary_round_aux_sign.
Qed.

Lemma push_divisor (b o : Boid float) (p : float) :
  near b o = true -> regular p = true -> has_sign false p ->
  has_sign false (length (mPos o -^ mPos b) * p).
Proof.
  intros Hn Hr Hp. destruct p as [| | |s m e]; try done. cbn in Hp. subst s.
  destruct (near_length b o Hn) as [->|(ml & el & ->)]; [done|].
  cbn. by apply binary_round_aux_sign.
Qed.

(** X8.  In binary32: when the pass of [b] counts [o] and [std::pow]
    returned a finite positive value, what the pass subtracts from
    [separation] is [push = toOther / (len * pow(2, dist))], and each
    component of [push] whose component of [toOther = o.pos - b.pos] is
    finite and not zero has the sign of that component and is not NaN
    (it can be a zero, through underflow, and an infinity, through
    overflow or a [len] that rounded to zero).  Subtracted from the sum,
    it moves [separation] away from the neighbour. *)
Theorem separation_pushes_away powf (b o : Boid float) (a : Acc float) :
  near b o = true ->
  regular (powf (of_int 2) (surface_distance b o)) = true ->
  has_sign false (powf (of_int 2) (surface_distance b o)) ->
  exists push,
    push = vdiv (mPos o -^ mPos b)
             (length (mPos o -^ mPos b) * powf (of_int 2) (surface_distance b o))
    /\ separation (visit powf b o a) = separation a -^ push
    /\ (forall s, regular (vx (mPos o -^ mPos b)) = true ->
                  has_sign s (vx (mPos o -^ mPos b)) -> has_sign s (vx push))
    /\ (forall s, regular (vy (mPos o -^ mPos b)) = true ->
                  has_sign s (vy (mPos o -^ mPos b)) -> has_sign s (vy push)).
Proof.
  intros Hn Hr Hp. eexists. split; [reflexivity|].
  pose proof (push_divisor b o _ Hn Hr Hp) as Hd.
  split; [by rewrite visit_near|].
  unfold vdiv. cbn [vx vy].
  split; intros s Hreg Hs.
  - destruct (vx (mPos o -^ mPos b)) as [| | |s' m e]; try done.
    cbn in Hs. subst s'. by apply SFdiv_sign.
  - destruct (vy (mPos o -^ mPos b)) as [| | |s' m e]; try done.
    cbn in Hs. subst s'. by apply SFdiv_sign.
Qed.
End Push.

Lemma separation_pushes_away_witness :
  exists push,
    push = vdiv (mPos close_boid -^ mPos west_boid)%flt
             (length (mPos close_boid -^ mPos west_boid)%flt
              * sample_pow (of_int 2) (surface_distance west_boid close_boid))%flt
    /\ separation (visit sample_pow west_boid close_boid acc0)
       = (separation acc0 -^ push)%flt
    /\ (forall s, regular (vx (mPos close_boid -^ mPos west_boid)%flt) = true ->
                  has_sign s (vx (mPos close_boid -^ mPos west_boid)%flt) ->
                  has_sign s (vx push))
    /\ (forall s, regular (vy (mPos close_boid -^ mPos west_boid)%flt) = true ->
                  has_sign s (vy (mPos close_boid -^ mPos west_boid)%flt) ->
                  has_sign s (vy push)).
Proof.
  apply (separation_pushes_away sample_pow west_boid close_boid acc0);
    vm_compute; reflexivity.
Defined.

(** ** FlockingApp: creating the boids *)

Section Spawning.
Context {F : Type} `{Scalar F}.
Variable rng : nat -> Z.
Local Open Scope Z_scope.

Lemma to_int_small z : 0 <= z <= INT_MAX -> to_int z = z.
Proof.
  unfold to_int, INT_MAX. intros Hz. rewrite Z.mod_small by lia. lia.
Qed.

Lemma to_int_range z : - 2 ^ 31 <= to_int z <= INT_MAX.
Proof.
  unfold to_int, INT_MAX.
  pose proof (Z.mod_pos_bound (z + 2 ^ 31) (2 ^ 32) ltac:(lia)). lia.
Qed.

Lemma rand_Some r min max :
  to_uint64 (max - min) <> 0 ->
  App.rand r min max = Some (to_uint64 (r mod to_uint64 (max - min) + min)).
Proof.
  intros Hd. unfold App.rand. cbn zeta.
  by rewrite (proj2 (Z.eqb_neq _ _) Hd).
Qed.

Lemma rand_None r min max :
  App.rand r min max = None <-> to_uint64 (max - min) = 0.
Proof.
  unfold App.rand. cbn zeta.
  destruct (Z.eqb_spec (to_uint64 (max - min)) 0); split; done.
Qed.

(** With [0 <= min <= max] in [uint64_t], the value is in [min, max):
    [max] itself is never drawn. *)
Lemma rand_range r min max v :
  0 <= min <= max -> max < 2 ^ 64 ->
  App.rand r min max = Some v -> min <= v < max.
Proof.
  intros Hmin Hmax. unfold App.rand. cbn zeta. unfold to_uint64.
  rewrite (Z.mod_small (max - min)) by lia.
  destruct (Z.eqb_spec (max - min) 0) as [|Hd]; [done|].
  intros [= <-].
  pose proof (Z.mod_pos_bound r (max - min) ltac:(lia)) as Hv.
  rewrite Z.mod_small by lia. lia.
Qed.
Lemma rand_zero r max v :
  App.rand r 0 max = Some v -> 0 <= v < to_uint64 max.
Proof.
  unfold App.rand. cbn zeta. rewrite Z.sub_0_r, Z.add_0_r.
  destruct (Z.eqb_spec (to_uint64 max) 0) as [|Hd]; [done|].
  intros [= <-]. unfold to_uint64 in *.
  pose proof (Z.mod_pos_bound max (2 ^ 64) ltac:(lia)) as Hr.
  pose proof (Z.mod_pos_bound r (max mod 2 ^ 64) ltac:(lia)) as Hv.
  rewrite (Z.mod_small (r mod _)) by lia. lia.
Qed.

Lemma rand_in r min max :
  0 <= min < max -> max < 2 ^ 64 ->
  exists v, App.rand r min max = Some v /\ min <= v < max.
Proof.
  intros Hmin Hmax.
  assert (Hd : to_uint64 (max - min) <> 0).
  { unfold to_uint64. rewrite Z.mod_small by lia. lia. }
  eexists. split; [by apply rand_Some|].
  apply (rand_range r); [lia|lia|by apply rand_Some].
Qed.

Lemma to_uint8_channel z : 0 <= z < 255 -> to_uint8 (to_int z) = z.
Proof.
  intros Hz. rewrite to_int_small by (unfold INT_MAX; lia).
  unfold to_uint8. apply Z.mod_small. lia.
Qed.

(** One pass of the loop: a boid more, six values of the engine less,
    and nothing else touched. *)
Lemma spawn_Some (app app' : FlockingApp F) :
  App.spawn rng app = Some app' ->
  exists b,
    app' = mkApp (mWindow app)
             (mkFlock (mBoids (mFlock app) ++ [b]) (mDest (mFlock app)))
             (mRng app + 6)%nat (mFlockSize app)
    /\ born (to_uint64 (getSize (mWindow app)).1)
            (to_uint64 (getSize (mWindow app)).2) b.
Proof.
  unfold App.spawn. cbn zeta.
  destruct (App.rand (rng (mRng app)) 0 _) as [x|] eqn:Hx; [|done].
  destruct (App.rand (rng (mRng app + 1)) 0 _) as [y|] eqn:Hy; [|done].
  destruct (rand_in (rng (mRng app + 2)) 2 8) as (radius & -> & Hr); [lia..|].
  destruct (rand_in (rng (mRng app + 3)) 0 255) as (r & -> & Hcr); [lia..|].
  destruct (rand_in (rng (mRng app + 4)) 0 255) as (g & -> & Hcg); [lia..|].
  destruct (rand_in (rng (mRng app + 5)) 0 255) as (bl & -> & Hcb); [lia..|].
  cbn. intros [= <-]. eexists. split; [reflexivity|].
  exists x, y, radius, r, g, bl.
  rewrite !to_uint8_channel by lia.
  rewrite (to_int_small radius) by (unfold INT_MAX; lia).
  apply rand_zero in Hx, Hy. repeat split; lia.
Qed.

Lemma spawn_None (app : FlockingApp F) :
  App.spawn rng app = None
  <-> to_uint64 (getSize (mWindow app)).1 = 0
      \/ to_uint64 (getSize (mWindow app)).2 = 0.
Proof.
  unfold App.spawn. cbn zeta.
  destruct (rand_in (rng (mRng app + 2)) 2 8) as (radius & -> & Hr); [lia..|].
  destruct (rand_in (rng (mRng app + 3)) 0 255) as (r & -> & Hcr); [lia..|].
  destruct (rand_in (rng (mRng app + 4)) 0 255) as (g & -> & Hcg); [lia..|].
  destruct (rand_in (rng (mRng app + 5)) 0 255) as (bl & -> & Hcb); [lia..|].
  destruct (App.rand (rng (mRng app)) 0 _) as [x|] eqn:Hx.
  - destruct (App.rand (rng (mRng app + 1)) 0 _) as [y|] eqn:Hy; cbn.
    + split; [done|]. intros [Hz|Hz].
      * apply rand_zero in Hx. lia.
      * apply rand_zero in Hy. lia.
    + apply rand_None in Hy. rewrite Z.sub_0_r in Hy. split; [by right|done].
  - apply rand_None in Hx. rewrite Z.sub_0_r in Hx. cbn. split; [by left|done].
Qed.

Lemma to_unsigned_small i : 0 <= i <= INT_MAX -> to_unsigned i = i.
Proof. unfold to_unsigned, INT_MAX. intros ?. apply Z.mod_small. lia. Qed.

(** The loop, when it ends: one boid for every value of the counter
    from [i] to [n - 1]. *)
Lemma createRandomFlock_from_Some fuel i n (app app' : FlockingApp F) :
  0 <= i <= INT_MAX ->
  App.createRandomFlock_from rng fuel i n app = Some app' ->
  exists new,
    app' = mkApp (mWindow app)
             (mkFlock (mBoids (mFlock app) ++ new) (mDest (mFlock app)))
             (mRng app + 6 * List.length new)%nat (mFlockSize app)
    /\ List.length new = Z.to_nat (n - i)
    /\ Forall (born (to_uint64 (getSize (mWindow app)).1)
                    (to_uint64 (getSize (mWindow app)).2)) new.
Proof.
  revert i app. induction fuel as [|fuel IH]; intros i app Hi; cbn [App.createRandomFlock_from];
    rewrite to_unsigned_small by done;
    destruct (Z.ltb_spec i n) as [Hlt|Hge].
  - done.
  - intros [= <-]. exists []. rewrite app_nil_r, Nat.add_0_r.
    split; [by destruct app as [? [? ?] ? ?]|]. split; [simpl; lia|done].
  - destruct (App.spawn rng app) as [app1|] eqn:Hs; [|done]. cbn.
    destruct (Z.ltb_spec i INT_MAX) as [Hm|Hm]; [|done].
    intros Hrec. apply IH in Hrec as (new & -> & Hlen & Hnew); [|lia].
    apply spawn_Some in Hs as (b & -> & Hb). cbn in *.
    exists (b :: new). rewrite <- app_assoc. cbn.
    split; [f_equal; lia|]. split; [lia|by constructor].
  - intros [= <-]. exists []. rewrite app_nil_r, Nat.add_0_r.
    split; [by destruct app as [? [? ?] ? ?]|]. split; [simpl; lia|done].
Qed.

(** The loop ends when the window has a width and a height and [n] is
    an [int]. *)
Lemma createRandomFlock_from_defined fuel i n (app : FlockingApp F) :
  0 <= i <= INT_MAX -> n <= INT_MAX ->
  (Z.to_nat (n - i) <= fuel)%nat ->
  to_uint64 (getSize (mWindow app)).1 <> 0 ->
  to_uint64 (getSize (mWindow app)).2 <> 0 ->
  is_Some (App.createRandomFlock_from rng fuel i n app).
Proof.
  revert i app. induction fuel as [|fuel IH]; intros i app Hi Hn Hf Hw Hh;
    cbn [App.createRandomFlock_from];
    rewrite to_unsigned_small by done;
    destruct (Z.ltb_spec i n) as [Hlt|Hge]; try done; [lia|].
  destruct (App.spawn rng app) as [app1|] eqn:Hs.
  - cbn. rewrite (proj2 (Z.ltb_lt i INT_MAX)) by lia.
    apply spawn_Some in Hs as (b & -> & _).
    apply IH; cbn; try done; lia.
  - apply spawn_None in Hs. tauto.
Qed.

(** A counter that cannot reach [n] overflows. *)
Lemma createRandomFlock_from_overflow d fuel i n (app : FlockingApp F) :
  0 <= i -> i + Z.of_nat d = INT_MAX -> INT_MAX < n ->
  (d < fuel)%nat ->
  App.createRandomFlock_from rng fuel i n app = None.
Proof.
  revert i fuel app. induction d as [|d IH]; intros i fuel app Hi Hd Hn Hf;
    (destruct fuel as [|fuel]; [lia|]);
    cbn [App.createRandomFlock_from];
    rewrite to_unsigned_small by lia;
    rewrite (proj2 (Z.ltb_lt i n)) by lia;
    (destruct (App.spawn rng app) as [app1|]; [|done]); cbn.
  - by rewrite (proj2 (Z.ltb_ge i INT_MAX)) by lia.
  - rewrite (proj2 (Z.ltb_lt i INT_MAX)) by lia. apply IH; lia.
Qed.
End Spawning.

(** ** FlockingApp: creating the boids, the statements *)

Section CreateRandomFlock.
Context {F : Type} `{Scalar F}.
Variable rng : nat -> Z.
Local Open Scope Z_scope.

Lemma createRandomFlock_Some n (app app' : FlockingApp F) :
  App.createRandomFlock rng n app = Some app' ->
  exists new,
    app' = mkApp (mWindow app)
             (mkFlock (mBoids (mFlock app) ++ new) (mDest (mFlock app)))
             (mRng app + 6 * List.length new)%nat (mFlockSize app)
    /\ List.length new = Z.to_nat n
    /\ Forall (born (to_uint64 (getSize (mWindow app)).1)
                    (to_uint64 (getSize (mWindow app)).2)) new.
Proof.
  intros Hc. apply createRandomFlock_from_Some in Hc; [|unfold INT_MAX; lia].
  by rewrite Z.sub_0_r in Hc.
Qed.

Lemma born_in_window w h (b : Boid F) :
  w <= 2 ^ 31 -> h <= 2 ^ 31 -> born w h b ->
  exists x y radius r g bl : Z,
    b = mkBoid (mkVec (of_int x) (of_int y)) vzero (of_int radius)
               (mkColor r g bl 255)
    /\ 0 <= x < w /\ 0 <= y < h /\ 2 <= radius <= 7
    /\ 0 <= r <= 254 /\ 0 <= g <= 254 /\ 0 <= bl <= 254.
Proof.
  intros Hw Hh (x & y & radius & r & g & bl & -> & Hx & Hy & Hrest).
  exists x, y, radius, r, g, bl.
  by rewrite !to_int_small by (unfold INT_MAX; lia).
Qed.

(** [createRandomFlock(n)] returns when the window has a width and a
    height and [n] is at most [INT_MAX]. *)
Lemma createRandomFlock_defined n (app : FlockingApp F) :
  0 < (getSize (mWindow app)).1 < 2 ^ 64 ->
  0 < (getSize (mWindow app)).2 < 2 ^ 64 ->
  n <= INT_MAX ->
  to_uint64 (getSize (mWindow app)).1 = (getSize (mWindow app)).1
  /\ to_uint64 (getSize (mWindow app)).2 = (getSize (mWindow app)).2
  /\ is_Some (App.createRandomFlock rng n app).
Proof.
  intros Hw Hh Hn.
  assert (Ew : to_uint64 (getSize (mWindow app)).1 = (getSize (mWindow app)).1)
    by (apply Z.mod_small; lia).
  assert (Eh : to_uint64 (getSize (mWindow app)).2 = (getSize (mWindow app)).2)
    by (apply Z.mod_small; lia).
  split; [done|]. split; [done|].
  apply createRandomFlock_from_defined; unfold INT_MAX in *; lia.
Qed.

(** X11.  [createRandomFlock(n)] in a window that has a width and a height,
    both at most [2^31], for [n] at most [INT_MAX]: it returns, having
    appended exactly [n] boids after those already there and taken [6 n]
    values from the engine; the window, the destination and [mFlockSize]
    are as before.  Every new boid is at rest at an integer pixel
    [(x, y)] with [0 <= x < width] and [0 <= y < height], has an integer
    radius from 2 to 7 (never 8) and an opaque colour whose channels are
    from 0 to 254 (never 255). *)
Theorem createRandomFlock_spawns n (app : FlockingApp F) :
  0 < (getSize (mWindow app)).1 <= 2 ^ 31 ->
  0 < (getSize (mWindow app)).2 <= 2 ^ 31 ->
  0 <= n <= INT_MAX ->
  exists new,
    App.createRandomFlock rng n app
    = Some (mkApp (mWindow app)
              (mkFlock (mBoids (mFlock app) ++ new) (mDest (mFlock app)))
              (mRng app + 6 * Z.to_nat n)%nat (mFlockSize app))
    /\ List.length new = Z.to_nat n
    /\ Forall (fun b => exists x y radius r g bl : Z,
                 b = mkBoid (mkVec (of_int x) (of_int y)) vzero
                            (of_int radius) (mkColor r g bl 255)
                 /\ 0 <= x < (getSize (mWindow app)).1
                 /\ 0 <= y < (getSize (mWindow app)).2
                 /\ 2 <= radius <= 7
                 /\ 0 <= r <= 254 /\ 0 <= g <= 254 /\ 0 <= bl <= 254) new.
Proof.
  intros Hw Hh Hn.
  destruct (createRandomFlock_defined n app) as (Ew & Eh & [app' Happ]);
    [lia..|].
  destruct (createRandomFlock_Some _ _ _ Happ) as (new & -> & Hlen & Hnew).
  exists new. rewrite Happ, Hlen. split; [done|]. split; [done|].
  rewrite Ew, Eh in Hnew.
  eapply Forall_impl; [exact Hnew|]. intros b Hb.
  apply born_in_window; [lia|lia|done].
Qed.

(** X12.  When [createRandomFlock(n)] leaves defined behaviour, for a window
    size and an [n] that are [unsigned int]s: exactly when it has a boid to
    make and the window has no width or no height (line 275 or 276 then
    takes a remainder modulo zero), or when [n] is above [INT_MAX] (the
    [int] counter of the loop overflows before it reaches [n]).  With [n]
    zero it returns whatever the window is. *)
Theorem createRandomFlock_undefined n (app : FlockingApp F) :
  0 <= (getSize (mWindow app)).1 < 2 ^ 32 ->
  0 <= (getSize (mWindow app)).2 < 2 ^ 32 ->
  App.createRandomFlock rng n app = None
  <-> (0 < n /\ ((getSize (mWindow app)).1 = 0
                 \/ (getSize (mWindow app)).2 = 0))
      \/ INT_MAX < n.
Proof.
  intros Hw Hh.
  assert (Ew : to_uint64 (getSize (mWindow app)).1 = (getSize (mWindow app)).1)
    by (apply Z.mod_small; lia).
  assert (Eh : to_uint64 (getSize (mWindow app)).2 = (getSize (mWindow app)).2)
    by (apply Z.mod_small; lia).
  split.
  - intros Hnone.
    destruct (Z.le_gt_cases n INT_MAX) as [Hn|Hn]; [|by right]. left.
    destruct (Z.le_gt_cases n 0) as [Hn0|Hn0].
    { unfold App.createRandomFlock in Hnone.
      destruct (Z.to_nat n); cbn [App.createRandomFlock_from] in Hnone;
        change (to_unsigned 0) with 0 in Hnone;
        by rewrite (proj2 (Z.ltb_ge 0 n)) in Hnone by lia. }
    split; [done|].
    destruct (Z.eq_dec (getSize (mWindow app)).1 0) as [|Hw0]; [by left|].
    destruct (Z.eq_dec (getSize (mWindow app)).2 0) as [|Hh0]; [by right|].
    destruct (createRandomFlock_from_defined rng (Z.to_nat n) 0 n app)
      as [app' Happ]; [unfold INT_MAX; lia|lia|lia|lia|lia|].
    unfold App.createRandomFlock in Hnone. congruence.
  - intros [[Hn Hz]|Hn].
    + unfold App.createRandomFlock.
      destruct (Z.to_nat n) as [|fuel] eqn:Hf; [lia|].
      cbn [App.createRandomFlock_from].
      change (to_unsigned 0) with 0. rewrite (proj2 (Z.ltb_lt 0 n)) by done.
      assert (Hs : App.spawn rng app = None) by (apply spawn_None; lia).
      by rewrite Hs.
    + apply (createRandomFlock_from_overflow rng (Z.to_nat INT_MAX));
        unfold INT_MAX in *; lia.
Qed.
End CreateRandomFlock.

Lemma createRandomFlock_spawns_witness :
  exists new,
    App.createRandomFlock sample_rng 300 (blank_app : FlockingApp float)
    = Some (mkApp (mWindow blank_app)
              (mkFlock (mBoids (mFlock blank_app) ++ new)
                       (mDest (mFlock blank_app)))
              (mRng (blank_app : FlockingApp float) + 6 * Z.to_nat 300)%nat
              (mFlockSize (blank_app : FlockingApp float)))
    /\ List.length new = Z.to_nat 300
    /\ Forall (fun b => exists x y radius r g bl : Z,
                 b = mkBoid (mkVec (of_int x) (of_int y)) vzero
                            (of_int radius) (mkColor r g bl 255)
                 /\ (0 <= x < 1524)%Z /\ (0 <= y < 1024)%Z
                 /\ (2 <= radius <= 7)%Z
                 /\ (0 <= r <= 254)%Z /\ (0 <= g <= 254)%Z
                 /\ (0 <= bl <= 254)%Z) new.
Proof.
  apply (createRandomFlock_spawns sample_rng 300 (blank_app : FlockingApp float));
    unfold INT_MAX; simpl; lia.
Defined.

Lemma createRandomFlock_undefined_witness :
  App.createRandomFlock sample_rng 300 (flat_app : FlockingApp float) = None
  <-> (0 < 300 /\ (0 = 0 \/ 1024 = 0))%Z \/ (INT_MAX < 300)%Z.
Proof.
  apply (createRandomFlock_undefined sample_rng 300 (flat_app : FlockingApp float));
    simpl; lia.
Defined.

(** ** FlockingApp: the events *)

Section Events.
Context {F : Type} `{Scalar F}.
Variable rng : nat -> Z.
Local Open Scope Z_scope.

Local Abbreviation handleEvents' := (App.handleEvents rng).

Lemma handleEvents_closed queue (app : FlockingApp F) :
  isOpen (mWindow app) = false -> handleEvents' queue app = Some app.
Proof. intros Hc. destruct queue; cbn; [done|]. by rewrite Hc. Qed.

(** The events are handled one after the other. *)
Lemma handleEvents_app q1 q2 (app : FlockingApp F) :
  handleEvents' (q1 ++ q2) app = handleEvents' q1 app ≫= handleEvents' q2.
Proof.
  revert app. induction q1 as [|event q1 IH]; intros app; [done|].
  rewrite <- app_comm_cons. cbn [App.handleEvents].
  destruct (isOpen (mWindow app)) eqn:Ho.
  - destruct event as [| | |[]|]; try apply IH.
    destruct (App.createRandomFlock rng _ _); cbn; [apply IH|done].
  - cbn. by rewrite handleEvents_closed.
Qed.

(** What one event does. *)
Lemma handleEvents_cons event queue (app : FlockingApp F) :
  handleEvents' (event :: queue) app
  = handleEvents' [event] app ≫= handleEvents' queue.
Proof. apply (handleEvents_app [event]). Qed.

Lemma handleEvents_Closed (app : FlockingApp F) :
  handleEvents' [Closed] app
  = Some (mkApp (mkWindow false (getSize (mWindow app)) (drawn (mWindow app))
                          (displayed (mWindow app)))
                (mFlock app) (mRng app) (mFlockSize app)).
Proof.
  cbn. destruct app as [[[] ? ? ?] ? ? ?]; done.
Qed.

(** What every event leaves alone, and what only [R] and [Closed] can
    change. *)
Lemma handleEvents_one event (app app' : FlockingApp F) :
  handleEvents' [event] app = Some app' ->
  mFlockSize app' = mFlockSize app
  /\ drawn (mWindow app') = drawn (mWindow app)
  /\ displayed (mWindow app') = displayed (mWindow app)
  /\ mDest (mFlock app')
     = (if isOpen (mWindow app)
        then from_option Vector2f (mDest (mFlock app)) (pointer event)
        else mDest (mFlock app))
  /\ (List.length (mBoids (mFlock app)) = Z.to_nat (mFlockSize app) ->
      List.length (mBoids (mFlock app')) = Z.to_nat (mFlockSize app))
  /\ (event <> Closed -> isOpen (mWindow app') = isOpen (mWindow app))
  /\ (event <> KeyPressed Scan_R ->
      mBoids (mFlock app') = mBoids (mFlock app) /\ mRng app' = mRng app).
Proof.
  cbn [App.handleEvents]. destruct (isOpen (mWindow app)) eqn:Ho.
  2:{ intros [= <-]. by rewrite Ho. }
  destruct event as [|size|position|[]|]; try (intros [= <-]; by cbn).
  destruct (App.createRandomFlock rng _ _) as [app1|] eqn:Hc; [|done]. cbn.
  apply createRandomFlock_Some in Hc as (new & -> & Hlen & _).
  intros [= <-]. cbn. by repeat split.
Qed.

Lemma handleEvents_keeps queue (app app' : FlockingApp F) :
  handleEvents' queue app = Some app' ->
  mFlockSize app' = mFlockSize app
  /\ drawn (mWindow app') = drawn (mWindow app)
  /\ displayed (mWindow app') = displayed (mWindow app)
  /\ (List.length (mBoids (mFlock app)) = Z.to_nat (mFlockSize app) ->
      List.length (mBoids (mFlock app')) = Z.to_nat (mFlockSize app))
  /\ (Closed ∉ queue -> isOpen (mWindow app') = isOpen (mWindow app))
  /\ (KeyPressed Scan_R ∉ queue ->
      mBoids (mFlock app') = mBoids (mFlock app) /\ mRng app' = mRng app).
Proof.
  revert app. induction queue as [|event queue IH]; intros app.
  { by intros [= <-]. }
  rewrite handleEvents_cons.
  destruct (handleEvents' [event] app) as [app1|] eqn:H1; [|done]. cbn.
  apply handleEvents_one in H1 as (A1 & A2 & A3 & _ & A4 & A5 & A6).
  intros (B1 & B2 & B3 & B4 & B5 & B6)%IH.
  rewrite A1 in *.
  split; [congruence|]. split; [congruence|]. split; [congruence|].
  split; [auto|].
  split; intros [Hne Hq]%not_elem_of_cons.
  - rewrite B5, A5; done.
  - destruct (A6 ltac:(done)) as [E1 E2]. destruct (B6 Hq) as [E3 E4].
    split; congruence.
Qed.

(** The destination after the events, while the window stays open: the
    position of the last mouse move, or the one before if there was
    none. *)
Lemma handleEvents_dest queue (app app' : FlockingApp F) :
  isOpen (mWindow app) = true -> Closed ∉ queue ->
  handleEvents' queue app = Some app' ->
  mDest (mFlock app')
  = from_option Vector2f (mDest (mFlock app)) (last (omap pointer queue)).
Proof.
  revert app. induction queue as [|event queue IH]; intros app Ho.
  { by intros _ [= <-]. }
  intros [Hne Hq]%not_elem_of_cons.
  rewrite handleEvents_cons.
  destruct (handleEvents' [event] app) as [app1|] eqn:H1; [|done]. cbn.
  apply handleEvents_one in H1 as (_ & _ & _ & A & _ & A5 & _).
  rewrite Ho in A. intros Hr.
  rewrite (IH app1); [|by rewrite A5|done|done].
  rewrite A. destruct (pointer event) as [p|]; cbn; [|done].
  rewrite last_cons. by destruct (last (omap pointer queue)).
Qed.

Lemma handleEvents_quiet queue (app : FlockingApp F) :
  KeyPressed Scan_R ∉ queue -> is_Some (handleEvents' queue app).
Proof.
  revert app. induction queue as [|event queue IH]; intros app; [done|].
  intros [Hne Hq]%not_elem_of_cons. cbn [App.handleEvents].
  destruct (isOpen (mWindow app)); [|done].
  destruct event as [| | |[]|]; try (by apply IH). done.
Qed.

Lemma handleEvents_close_in queue (app app' : FlockingApp F) :
  Closed ∈ queue -> handleEvents' queue app = Some app' ->
  isOpen (mWindow app') = false.
Proof.
  intros (q1 & q2 & ->)%list_elem_of_split.
  rewrite handleEvents_app.
  destruct (handleEvents' q1 app) as [app1|]; [|done].
  cbn [mbind option_bind].
  rewrite handleEvents_cons, handleEvents_Closed. cbn [mbind option_bind].
  rewrite handleEvents_closed by done. by intros [= <-].
Qed.

(** X13.  Nothing behind a [Closed] event is handled: the events up to it are,
    the window is then closed, and [handleEvents] returns with the flock,
    the engine and the size of the window as those events left them. *)
Theorem handleEvents_stops_at_close q1 q2 (app : FlockingApp F) :
  handleEvents' (q1 ++ Closed :: q2) app = handleEvents' (q1 ++ [Closed]) app
  /\ forall app',
       handleEvents' (q1 ++ [Closed]) app = Some app' ->
       isOpen (mWindow app') = false
       /\ exists app1,
            handleEvents' q1 app = Some app1
            /\ mFlock app' = mFlock app1 /\ mRng app' = mRng app1
            /\ mFlockSize app' = mFlockSize app1
            /\ getSize (mWindow app') = getSize (mWindow app1).
Proof.
  rewrite !handleEvents_app.
  destruct (handleEvents' q1 app) as [app1|]; [|done].
  cbn [mbind option_bind].
  rewrite (handleEvents_cons Closed q2), handleEvents_Closed.
  cbn [mbind option_bind].
  rewrite handleEvents_closed by done.
  split; [done|]. intros app' [= <-]. split; [done|]. by exists app1.
Qed.

(** X14.  While no [Closed] event arrives, the destination [handleEvents]
    leaves is the position of the last mouse move of the queue, its two
    [int]s converted to [float] (presses of [R] in between do not change
    it), and the one set before if the pointer did not move; the window is
    still open. *)
Theorem handleEvents_pointer queue (app app' : FlockingApp F) :
  isOpen (mWindow app) = true -> Closed ∉ queue ->
  handleEvents' queue app = Some app' ->
  mDest (mFlock app')
  = from_option Vector2f (mDest (mFlock app)) (last (omap pointer queue))
  /\ isOpen (mWindow app') = true.
Proof.
  intros Ho Hq Happ. split; [by apply handleEvents_dest|].
  apply handleEvents_keeps in Happ as (_ & _ & _ & _ & H5 & _).
  by rewrite H5.
Qed.

(** X15.  Without a press of [R], [handleEvents] returns whatever the window
    is, and the boids are those it found, in their state and order; no
    value is taken from the engine. *)
Theorem handleEvents_without_reset queue (app : FlockingApp F) :
  KeyPressed Scan_R ∉ queue ->
  exists app',
    handleEvents' queue app = Some app'
    /\ mBoids (mFlock app') = mBoids (mFlock app)
    /\ mRng app' = mRng app /\ mFlockSize app' = mFlockSize app.
Proof.
  intros Hq. destruct (handleEvents_quiet queue app Hq) as [app' Happ].
  exists app'. split; [done|].
  apply handleEvents_keeps in Happ as (H1 & _ & _ & _ & _ & H6).
  destruct (H6 Hq). done.
Qed.

(** X16.  A press of [R] on the open window, when the window has a width and
    a height (at most [2^31]) and [mFlockSize] is at most [INT_MAX]: the
    boids there were are all gone, and [mFlockSize] new ones are there, at
    rest, inside the window, with radii from 2 to 7; the destination is
    the one set before. *)
Theorem handleEvents_reset (app : FlockingApp F) :
  isOpen (mWindow app) = true ->
  0 < (getSize (mWindow app)).1 <= 2 ^ 31 ->
  0 < (getSize (mWindow app)).2 <= 2 ^ 31 ->
  0 <= mFlockSize app <= INT_MAX ->
  exists new,
    handleEvents' [KeyPressed Scan_R] app
    = Some (mkApp (mWindow app) (mkFlock new (mDest (mFlock app)))
              (mRng app + 6 * Z.to_nat (mFlockSize app))%nat (mFlockSize app))
    /\ List.length new = Z.to_nat (mFlockSize app)
    /\ Forall (fun b => exists x y radius r g bl : Z,
                 b = mkBoid (mkVec (of_int x) (of_int y)) vzero
                            (of_int radius) (mkColor r g bl 255)
                 /\ 0 <= x < (getSize (mWindow app)).1
                 /\ 0 <= y < (getSize (mWindow app)).2
                 /\ 2 <= radius <= 7
                 /\ 0 <= r <= 254 /\ 0 <= g <= 254 /\ 0 <= bl <= 254) new.
Proof.
  intros Ho Hw Hh Hn. cbn [App.handleEvents]. rewrite Ho.
  replace (App.filterEvent _ _) with (mWindow app)
    by (by destruct app as [[] ? ? ?]).
  destruct (createRandomFlock_defined rng (mFlockSize app)
              (mkApp (mWindow app) (clear (mFlock app)) (mRng app)
                     (mFlockSize app)))
    as (Ew & Eh & [app' Happ]); [cbn; lia..|].
  rewrite Happ. cbn [mbind option_bind].
  destruct (createRandomFlock_Some _ _ _ _ Happ) as (new & -> & Hlen & Hnew).
  cbn [mWindow mFlock mBoids mDest clear mRng mFlockSize] in *.
  exists new. rewrite app_nil_l, Hlen. split; [done|]. split; [done|].
  rewrite Ew, Eh in Hnew.
  eapply Forall_impl; [exact Hnew|]. intros b Hb.
  apply born_in_window; [lia|lia|done].
Qed.
End Events.

Ltac not_in_queue :=
  repeat (apply not_elem_of_cons; split; [discriminate|]); apply not_elem_of_nil.

Lemma handleEvents_pointer_witness :
  mDest (mFlock (mkApp (mkWindow true (800, 600)%Z [] [])
                       (mkFlock [] (Vector2f (30, 40)%Z)) 0 300%Z
                 : FlockingApp float))
  = from_option Vector2f (mDest (mFlock (blank_app : FlockingApp float)))
      (last (omap pointer sample_queue))
  /\ isOpen (mWindow (mkApp (mkWindow true (800, 600)%Z [] [])
                            (mkFlock [] (Vector2f (30, 40)%Z)) 0 300%Z
                      : FlockingApp float)) = true.
Proof.
  apply (handleEvents_pointer sample_rng sample_queue blank_app);
    [reflexivity|not_in_queue|reflexivity].
Defined.

Lemma handleEvents_without_reset_witness :
  exists app' : FlockingApp float,
    App.handleEvents sample_rng sample_queue blank_app = Some app'
    /\ mBoids (mFlock app') = mBoids (mFlock (blank_app : FlockingApp float))
    /\ mRng app' = mRng (blank_app : FlockingApp float)
    /\ mFlockSize app' = mFlockSize (blank_app : FlockingApp float).
Proof.
  apply (handleEvents_without_reset sample_rng sample_queue blank_app).
  not_in_queue.
Defined.

Lemma handleEvents_reset_witness :
  exists new,
    App.handleEvents sample_rng [KeyPressed Scan_R]
      (blank_app : FlockingApp float)
    = Some (mkApp (mWindow blank_app)
              (mkFlock new (mDest (mFlock blank_app)))
              (mRng (blank_app : FlockingApp float)
               + 6 * Z.to_nat (mFlockSize (blank_app : FlockingApp float)))%nat
              (mFlockSize (blank_app : FlockingApp float)))
    /\ List.length new = Z.to_nat (mFlockSize (blank_app : FlockingApp float))
    /\ Forall (fun b => exists x y radius r g bl : Z,
                 b = mkBoid (mkVec (of_int x) (of_int y)) vzero
                            (of_int radius) (mkColor r g bl 255)
                 /\ (0 <= x < 1524)%Z /\ (0 <= y < 1024)%Z
                 /\ (2 <= radius <= 7)%Z
                 /\ (0 <= r <= 254)%Z /\ (0 <= g <= 254)%Z
                 /\ (0 <= bl <= 254)%Z) new.
Proof.
  apply (handleEvents_reset sample_rng (blank_app : FlockingApp float));
    [reflexivity|simpl; lia|simpl; lia|unfold INT_MAX; simpl; lia].
Defined.

(** ** FlockingApp: the loop of [run] *)

Section Run.
Context {F : Type} `{Scalar F}.
Variable powf : F -> F -> F.
Variable noise : nat -> F.
Variable rng : nat -> Z.

Local Abbreviation run' := (App.run powf noise rng).
Local Abbreviation frame' := (App.frame powf noise).
Local Abbreviation handleEvents' := (App.handleEvents rng).

(** One turn: the flock is updated and then drawn, the frame shows the
    boids after the update. *)
Lemma frame_spec k (app : FlockingApp F) :
  let up := update powf noise k (mFlock app) in
  frame' (k, app)
  = ((k + 2 * List.length (mBoids (mFlock app)))%nat,
     mkApp (mkWindow (isOpen (mWindow app)) (getSize (mWindow app))
              (mCirc <$> mBoids up.2)
              (displayed (mWindow app) ++ [mCirc <$> mBoids up.2]))
           up.2 (mRng app) (mFlockSize app)).
Proof.
  cbn zeta. unfold App.frame. cbn [fst snd].
  rewrite Flock_draw_shapes, update_counter. done.
Qed.

Lemma run_closed input (st : nat * FlockingApp F) :
  isOpen (mWindow st.2) = false -> run' input st = Exited st.
Proof. intros Hc. destruct input; cbn; by rewrite Hc. Qed.

Lemma run_cons queue input (st : nat * FlockingApp F) :
  isOpen (mWindow st.2) = true ->
  run' (queue :: input) st
  = match handleEvents' queue st.2 with
    | Some app => run' input (frame' (st.1, app))
    | None => Undefined
    end.
Proof. intros Ho. cbn [App.run]. by rewrite Ho. Qed.

(** What holds at the start of the loop and is kept by every turn holds
    at its end; [Q] is what is known of the events of every turn. *)
Lemma run_invariant (Q : list Event -> Prop)
    (P : nat * FlockingApp F -> Prop) :
  (forall k app queue app',
      Q queue -> P (k, app) -> isOpen (mWindow app) = true ->
      handleEvents' queue app = Some app' -> P (frame' (k, app'))) ->
  forall input st st',
    Forall Q input -> P st ->
    run' input st = Running st' \/ run' input st = Exited st' ->
    P st'.
Proof.
  intros Hturn input. induction input as [|queue input IH];
    intros st st' HQ HP.
  - cbn. destruct (isOpen (mWindow st.2)); intros [[= <-]|[= <-]]; done.
  - apply Forall_cons in HQ as [HQ1 HQ].
    destruct (isOpen (mWindow st.2)) eqn:Ho.
    + rewrite run_cons by done.
      destruct (handleEvents' queue st.2) as [app|] eqn:Hq.
      * apply IH; [done|]. destruct st as [k app0]. by eapply Hturn.
      * by intros [|].
    + rewrite run_closed by done. by intros [[= <-]|[= <-]].
Qed.

Lemma frame_displayed k (app : FlockingApp F) :
  displayed (mWindow (frame' (k, app)).2)
  = displayed (mWindow app)
    ++ [mCirc <$> mBoids (update powf noise k (mFlock app)).2]
  /\ isOpen (mWindow (frame' (k, app)).2) = isOpen (mWindow app).
Proof. by rewrite frame_spec. Qed.

(** [run] returns only after a [Closed] event, and the turn that
    handles it still updates the flock and draws a frame. *)
Lemma run_Exited input (st st' : nat * FlockingApp F) :
  isOpen (mWindow st.2) = true -> run' input st = Exited st' ->
  exists calm queue later,
    input = calm ++ queue :: later
    /\ Forall (fun q => Closed ∉ q) calm /\ Closed ∈ queue
    /\ isOpen (mWindow st'.2) = false
    /\ List.length (displayed (mWindow st'.2))
       = (List.length (displayed (mWindow st.2)) + List.length calm + 1)%nat.
Proof.
  revert st. induction input as [|queue input IH]; intros st Ho.
  { cbn. by rewrite Ho. }
  rewrite run_cons by done.
  destruct (handleEvents' queue st.2) as [app|] eqn:Hq; [|done].
  destruct (frame_displayed st.1 app) as [Hd Hopen].
  pose proof (handleEvents_keeps _ _ _ _ Hq) as (_ & _ & Hdis & _ & Hsame & _).
  destruct (decide (Closed ∈ queue)) as [Hin|Hnin].
  - pose proof (handleEvents_close_in _ _ _ _ Hin Hq) as Hc.
    rewrite run_closed by (by rewrite Hopen). intros [= <-].
    exists [], queue, input. repeat split; try done.
    + by rewrite Hopen.
    + rewrite Hd, length_app, Hdis. cbn. lia.
  - intros Hrun. apply IH in Hrun as (calm & q & later & -> & Hcalm & Hin & Hc & Hlen).
    2:{ rewrite Hopen, Hsame; done. }
    exists (queue :: calm), q, later. repeat split; try done.
    + by constructor.
    + rewrite Hlen, Hd, length_app, Hdis. cbn. lia.
Qed.

Lemma run_Running input (st st' : nat * FlockingApp F) :
  run' input st = Running st' ->
  Forall (fun q => Closed ∉ q) input
  /\ isOpen (mWindow st'.2) = true
  /\ List.length (displayed (mWindow st'.2))
     = (List.length (displayed (mWindow st.2)) + List.length input)%nat.
Proof.
  revert st. induction input as [|queue input IH]; intros st.
  { cbn. destruct (isOpen (mWindow st.2)) eqn:Ho; [|done].
    intros [= <-]. repeat split; try done. }
  destruct (isOpen (mWindow st.2)) eqn:Ho.
  2:{ by rewrite run_closed. }
  rewrite run_cons by done.
  destruct (handleEvents' queue st.2) as [app|] eqn:Hq; [|done].
  destruct (frame_displayed st.1 app) as [Hd Hopen].
  pose proof (handleEvents_keeps _ _ _ _ Hq) as (_ & _ & Hdis & _ & Hsame & _).
  intros Hrun. pose proof Hrun as (Hcalm & Ho' & Hlen)%IH.
  assert (Hnin : Closed ∉ queue).
  { intros Hin. pose proof (handleEvents_close_in _ _ _ _ Hin Hq) as Hc.
    rewrite run_closed in Hrun by (by rewrite Hopen). done. }
  repeat split; try done.
  - by constructor.
  - rewrite Hlen, Hd, length_app, Hdis. cbn. lia.
Qed.

(** X17.  [run()] returns only after a [Closed] event has arrived, and the
    turn of the loop that handles it still updates the flock and draws a
    frame before the loop ends: if the window is open at the start and
    [run] returns, the input splits into turns without a [Closed] event,
    the turn in which one arrives, and the rest, which is never read; one
    frame was displayed for every turn up to and including the closing
    one.  And while [run] is still in its loop, no [Closed] event has
    arrived, the window is open and one frame was displayed per turn. *)
Theorem run_returns_after_close input (st : nat * FlockingApp F) :
  isOpen (mWindow st.2) = true ->
  (forall st',
      run' input st = Exited st' ->
      exists calm queue later,
        input = calm ++ queue :: later
        /\ Forall (fun q => Closed ∉ q) calm /\ Closed ∈ queue
        /\ isOpen (mWindow st'.2) = false
        /\ List.length (displayed (mWindow st'.2))
           = (List.length (displayed (mWindow st.2))
              + List.length calm + 1)%nat)
  /\ (forall st',
        run' input st = Running st' ->
        Forall (fun q => Closed ∉ q) input
        /\ isOpen (mWindow st'.2) = true
        /\ List.length (displayed (mWindow st'.2))
           = (List.length (displayed (mWindow st.2))
              + List.length input)%nat).
Proof.
  intros Ho. split; intros st'; [by apply run_Exited|apply run_Running].
Qed.

(** X18.  The number of boids never changes while the program runs: from the
    constructor on, at every turn of the loop, whatever the events, the
    flock holds [flockSize] boids, every frame displayed shows that many
    circles, and the generator of [update] has given two draws per boid
    and frame. *)
Theorem run_keeps_flock_size windowWidth windowHeight flockSize input
    (app : FlockingApp F) (st : nat * FlockingApp F) :
  App.make rng windowWidth windowHeight flockSize = Some app ->
  run' input (0, app) = Running st \/ run' input (0, app) = Exited st ->
  mFlockSize st.2 = flockSize
  /\ List.length (mBoids (mFlock st.2)) = Z.to_nat flockSize
  /\ Forall (fun shapes => List.length shapes = Z.to_nat flockSize)
            (displayed (mWindow st.2))
  /\ st.1 = 2 * Z.to_nat flockSize * List.length (displayed (mWindow st.2)).
Proof.
  intros Hmake Hrun.
  apply createRandomFlock_Some in Hmake as (new & -> & Hlen & _).
  set (P := fun st : nat * FlockingApp F =>
              mFlockSize st.2 = flockSize
              /\ List.length (mBoids (mFlock st.2)) = Z.to_nat flockSize
              /\ Forall (fun shapes => List.length shapes = Z.to_nat flockSize)
                        (displayed (mWindow st.2))
              /\ st.1 = 2 * Z.to_nat flockSize
                        * List.length (displayed (mWindow st.2))).
  apply (run_invariant (fun _ => True) P) with (input := input) (st := (0, mkApp
           (mkWindow true (windowWidth, windowHeight) [] [])
           (mkFlock (mBoids new_flock ++ new) (mDest new_flock))
           (0 + 6 * List.length new) flockSize)); [| | |done].
  - clear. intros k app queue app' _ (P1 & P2 & P3 & P4) _ Hq.
    cbn [fst snd] in *.
    apply handleEvents_keeps in Hq as (K1 & _ & K3 & K4 & _).
    rewrite P1 in *. specialize (K4 P2).
    unfold P. rewrite frame_spec. cbn [fst snd mFlockSize mWindow mFlock displayed].
    rewrite update_length, K3, length_app, K4.
    split; [done|]. split; [done|]. split.
    + apply Forall_app. split; [done|]. constructor; [|done].
      by rewrite length_fmap, update_length.
    + cbn. lia.
  - by apply Forall_true.
  - unfold P. cbn. repeat split; try done.
Qed.
(** X23.  What the window shows is the flock as it is.  After every turn
    of the loop the last frame displayed holds, for each boid and in the
    order of [mBoids], the circle of the boid in the state the update of
    that turn left it: the frame is drawn after the update, so the picture
    is never a turn behind the boids. *)
Theorem run_shows_current_flock input (st0 st : nat * FlockingApp F) :
  run' input st0 = Running st \/ run' input st0 = Exited st ->
  st = st0
  \/ (last (displayed (mWindow st.2)) = Some (mCirc <$> mBoids (mFlock st.2))
      /\ drawn (mWindow st.2) = mCirc <$> mBoids (mFlock st.2)).
Proof.
  apply (run_invariant (fun _ => True)
           (fun st => st = st0
              \/ (last (displayed (mWindow st.2))
                  = Some (mCirc <$> mBoids (mFlock st.2))
                  /\ drawn (mWindow st.2) = mCirc <$> mBoids (mFlock st.2)))).
  - intros k app queue app' _ _ _ _. right.
    rewrite frame_spec. cbn [snd mWindow mFlock displayed drawn].
    by rewrite last_snoc.
  - by apply Forall_true.
  - by left.
Qed.
End Run.

Lemma run_returns_after_close_witness :
  (forall st',
      App.run sample_pow no_noise sample_rng [sample_queue; [Closed]; []]
        (0, blank_app) = Exited st' ->
      exists calm queue later,
        [sample_queue; [Closed]; []] = calm ++ queue :: later
        /\ Forall (fun q => Closed ∉ q) calm /\ Closed ∈ queue
        /\ isOpen (mWindow st'.2) = false
        /\ List.length (displayed (mWindow st'.2))
           = (List.length (displayed (mWindow (blank_app : FlockingApp float)))
              + List.length calm + 1)%nat)
  /\ (forall st',
        App.run sample_pow no_noise sample_rng [sample_queue; [Closed]; []]
          (0, blank_app) = Running st' ->
        Forall (fun q => Closed ∉ q) [sample_queue; [Closed]; []]
        /\ isOpen (mWindow st'.2) = true
        /\ List.length (displayed (mWindow st'.2))
           = (List.length (displayed (mWindow (blank_app : FlockingApp float)))
              + List.length [sample_queue; [Closed]; []])%nat).
Proof.
  apply (run_returns_after_close sample_pow no_noise sample_rng
           [sample_queue; [Closed]; []] (0, blank_app)).
  reflexivity.
Defined.

Lemma run_shows_current_flock_witness :
  exists st,
    App.run sample_pow no_noise sample_rng [sample_queue] (0, one_boid_app)
    = Running st
    /\ (st = (0, one_boid_app)
        \/ (last (displayed (mWindow st.2))
            = Some (mCirc <$> mBoids (mFlock st.2))
            /\ drawn (mWindow st.2) = mCirc <$> mBoids (mFlock st.2))).
Proof.
  eexists.
  match goal with
  | |- ?r = Running ?s /\ _ =>
      assert (Hrun : r = Running s) by (vm_compute; reflexivity)
  end.
  split; [exact Hrun|].
  exact (run_shows_current_flock sample_pow no_noise sample_rng
           [sample_queue] (0, one_boid_app) _ (or_introl Hrun)).
Defined.

Lemma run_keeps_flock_size_witness :
  exists (app : FlockingApp float) st,
    App.make sample_rng 1524 1024 3 = Some app
    /\ App.run sample_pow no_noise sample_rng [sample_queue; []] (0, app)
       = Running st
    /\ mFlockSize st.2 = 3%Z
    /\ List.length (mBoids (mFlock st.2)) = Z.to_nat 3
    /\ Forall (fun shapes => List.length shapes = Z.to_nat 3)
              (displayed (mWindow st.2))
    /\ st.1 = 2 * Z.to_nat 3 * List.length (displayed (mWindow st.2)).
Proof.
  eexists. eexists.
  split; [vm_compute; reflexivity|]. split; [vm_compute; reflexivity|].
  eapply (run_keeps_flock_size sample_pow no_noise sample_rng 1524 1024 3
            [sample_queue; []]);
    [vm_compute; reflexivity|left; vm_compute; reflexivity].
Defined.

(** ** binary32: the conversion from [int] *)

Section OfInt.
Local Open Scope Z_scope.

(** Every [int] converts to a finite [float]. *)
Lemma of_int_finite z :
  - 2 ^ 31 <= z <= 2 ^ 31 ->
  finite (of_int z) = true /\ valid (of_int z) = true.
Proof.
  intros Hz.
  destruct (binary_normalize_ext z 0 ltac:(lia)) as (He & Hv & Hn).
  cbn zeta in *.
  change (binary_normalize prec emax z 0 false) with (@of_int float _ z) in *.
  split; [|done].
  assert (Hr : rnd (2 ^ 180) = 2 ^ 180) by (by vm_compute).
  assert (Hb : 2 ^ 180 < big) by (by vm_compute).
  assert (Hhi : rnd (z * 2 ^ (0 + 149)) <= rnd (2 ^ 180)).
  { apply rnd_mono. change (2 ^ 180) with (2 ^ 31 * 2 ^ (0 + 149)).
    apply Z.mul_le_mono_nonneg_r; lia. }
  assert (Hlo : rnd (- 2 ^ 180) <= rnd (z * 2 ^ (0 + 149))).
  { apply rnd_mono. change (- 2 ^ 180) with (- 2 ^ 31 * 2 ^ (0 + 149)).
    apply Z.mul_le_mono_nonneg_r; lia. }
  rewrite rnd_opp, Hr, <- He in *.
  clear He Hr Hz. revert Hb Hhi Hlo Hn.
  generalize (2 ^ 180). intros B Hb Hhi Hlo Hn.
  destruct (@of_int float _ z) as [s|s| |s m e].
  - done.
  - exfalso. destruct s; cbn [ext cond_Zopp] in Hhi, Hlo; lia.
  - done.
  - done.
Qed.

Lemma of_int_radius radius :
  2 <= radius <= 7 ->
  finite (of_int radius) = true /\ valid (of_int radius) = true
  /\ (of_int 0 <? (of_int radius : float))%flt = true.
Proof.
  intros Hr.
  assert (radius = 2 \/ radius = 3 \/ radius = 4 \/ radius = 5
          \/ radius = 6 \/ radius = 7) as Hc by lia.
  destruct Hc as [->|[->|[->|[->|[->| ->]]]]]; repeat split.
Qed.

(** A boid as [createRandomFlock] makes it is finite. *)
Lemma born_finite w h (b : Boid float) :
  born w h b ->
  finite_vec (mPos b) = true /\ mVel b = vzero
  /\ finite (mRadius b) = true /\ valid (mRadius b) = true
  /\ (of_int 0 <? mRadius b)%flt = true.
Proof.
  intros (x & y & radius & r & g & bl & -> & _ & _ & Hr & _). cbn.
  destruct (of_int_radius radius Hr) as (? & ? & ?).
  pose proof (to_int_range x) as Hx. pose proof (to_int_range y) as Hy.
  unfold INT_MAX in *.
  destruct (of_int_finite (to_int x) ltac:(lia)) as [Fx _].
  destruct (of_int_finite (to_int y) ltac:(lia)) as [Fy _].
  unfold finite_vec. cbn [vx vy].
  change (binary_normalize prec emax (to_int x) 0 false) with (@of_int float _ (to_int x)).
  change (binary_normalize prec emax (to_int y) 0 false) with (@of_int float _ (to_int y)).
  rewrite Fx, Fy. done.
Qed.
End OfInt.

(** ** binary32: the application and NaN *)

Section AppNaN.
Variable powf : float -> float -> float.
Variable noise : nat -> float.
Variable rng : nat -> Z.
Local Open Scope flt_scope.

Lemma Vector2f_finite (position : Z * Z) :
  (- 2 ^ 31 <= position.1 < 2 ^ 31)%Z -> (- 2 ^ 31 <= position.2 < 2 ^ 31)%Z ->
  finite_vec (Vector2f position : Vec float) = true.
Proof.
  intros Hx Hy. unfold finite_vec, Vector2f. cbn [vx vy].
  destruct (of_int_finite position.1 ltac:(lia)) as [-> _].
  by destruct (of_int_finite position.2 ltac:(lia)) as [-> _].
Qed.

(** X20.  The pointer on a boid.  When the last mouse move of a turn leaves
    the pointer (an [int] pixel) exactly where a boid is, and neither [R]
    nor [Closed] arrives, the update of the same turn gives that boid NaN
    in both components of its velocity and of its position: the direction
    to the destination is [normalized()] of the zero vector. *)
Theorem pointer_on_boid_nan k (app : FlockingApp float) queue position i b :
  isOpen (mWindow app) = true ->
  Closed ∉ queue -> KeyPressed Scan_R ∉ queue ->
  last (omap pointer queue) = Some position ->
  (- 2 ^ 31 <= position.1 < 2 ^ 31)%Z -> (- 2 ^ 31 <= position.2 < 2 ^ 31)%Z ->
  mBoids (mFlock app) !! i = Some b -> mPos b = Vector2f position ->
  exists st,
    App.run powf noise rng [queue] (k, app) = Running st
    /\ mBoids (mFlock st.2) !! i
       = Some (mkBoid nan_vec nan_vec (mRadius b) (mColor b)).
Proof.
  intros Ho Hc Hr Hlast Hx Hy Hb Hp.
  destruct (handleEvents_quiet rng queue app Hr) as [app' Happ].
  pose proof (handleEvents_dest rng _ _ _ Ho Hc Happ) as Hd.
  rewrite Hlast in Hd. cbn in Hd.
  pose proof (handleEvents_keeps rng _ _ _ Happ) as (_ & _ & _ & _ & Hopen & Hsame).
  destruct (Hsame Hr) as [Hbs _]. specialize (Hopen Hc).
  rewrite run_cons by done. cbn [snd fst]. rewrite Happ.
  eexists. split.
  - cbn [App.run]. rewrite frame_spec. cbn [snd mWindow isOpen].
    by rewrite Hopen, Ho.
  - cbn [snd mFlock].
    apply update_at_destination.
    + by rewrite Hbs.
    + by rewrite Hd.
    + rewrite Hd. by apply Vector2f_finite.
Qed.

(** X21.  Two boids made on one pixel.  In the flock the constructor builds,
    every boid is finite and has a positive radius, so whenever two of
    them were given the same pixel, the first [update()] leaves the
    earlier one with NaN in its velocity and in its position (line 102
    divides by a zero length). *)
Theorem coincident_after_make windowWidth windowHeight flockSize
    (app : FlockingApp float) k i j b o :
  App.make rng windowWidth windowHeight flockSize = Some app ->
  mBoids (mFlock app) !! i = Some b -> mBoids (mFlock app) !! j = Some o ->
  i < j -> mPos o = mPos b ->
  mBoids (update powf noise k (mFlock app)).2 !! i
  = Some (mkBoid nan_vec nan_vec (mRadius b) (mColor b)).
Proof.
  intros Hmake Hb Ho' Hij Hp.
  apply createRandomFlock_Some in Hmake as (new & -> & _ & Hnew).
  cbn [mFlock mBoids new_flock app] in Hb, Ho'.
  rewrite Forall_forall in Hnew.
  destruct (born_finite _ _ b (Hnew b (list_elem_of_lookup_2 _ _ _ Hb)))
    as (Fb & _ & _ & _ & Rb).
  destruct (born_finite _ _ o (Hnew o (list_elem_of_lookup_2 _ _ _ Ho')))
    as (_ & _ & _ & _ & Ro).
  by apply (update_coincident powf noise k _ i j b o).
Qed.

(** X19.  What [R] gives back.  After the constructor, and after every press
    of [R] on the open window, each boid of the flock is finite: finite
    coordinates, velocity zero, a finite positive radius.  The boids that
    had become NaN are among those [R] removes. *)
Theorem fresh_boids_finite :
  (forall windowWidth windowHeight flockSize (app : FlockingApp float),
      App.make rng windowWidth windowHeight flockSize = Some app ->
      Forall (fun b => finite_vec (mPos b) = true /\ mVel b = vzero
                       /\ finite (mRadius b) = true
                       /\ (of_int 0 <? mRadius b) = true)
             (mBoids (mFlock app)))
  /\ (forall app app' : FlockingApp float,
        isOpen (mWindow app) = true ->
        App.handleEvents rng [KeyPressed Scan_R] app = Some app' ->
        List.length (mBoids (mFlock app')) = Z.to_nat (mFlockSize app)
        /\ Forall (fun b => finite_vec (mPos b) = true /\ mVel b = vzero
                            /\ finite (mRadius b) = true
                            /\ (of_int 0 <? mRadius b) = true)
                  (mBoids (mFlock app'))).
Proof.
  split.
  - intros w h n app Hmake.
    apply createRandomFlock_Some in Hmake as (new & -> & _ & Hnew).
    cbn [mFlock mBoids new_flock app].
    eapply Forall_impl; [exact Hnew|]. intros b Hb.
    destruct (born_finite _ _ b Hb) as (? & ? & ? & ? & ?). done.
  - intros app app' Ho. cbn [App.handleEvents]. rewrite Ho.
    destruct (App.createRandomFlock rng _ _) as [app1|] eqn:Hc; [|done].
    cbn [mbind option_bind]. intros [= <-].
    apply createRandomFlock_Some in Hc as (new & -> & Hlen & Hnew).
    cbn [mFlock mBoids clear mFlockSize] in *. rewrite app_nil_l.
    split; [done|].
    eapply Forall_impl; [exact Hnew|]. intros b Hb.
    destruct (born_finite _ _ b Hb) as (? & ? & ? & ? & ?). done.
Qed.

(** X22.  A boid that is NaN stays NaN while the program runs, until [R] is
    pressed: if the boid at index [i] has NaN in its position and no
    queue of the input holds a press of [R], the boid at index [i] has NaN
    in its position at the end of every turn. *)
Theorem nan_until_reset input (st st' : nat * FlockingApp float) i b :
  mBoids (mFlock st.2) !! i = Some b -> has_nan (mPos b) = true ->
  Forall (fun queue => KeyPressed Scan_R ∉ queue) input ->
  App.run powf noise rng input st = Running st'
  \/ App.run powf noise rng input st = Exited st' ->
  exists b',
    mBoids (mFlock st'.2) !! i = Some b' /\ has_nan (mPos b') = true
    /\ mRadius b' = mRadius b /\ mColor b' = mColor b.
Proof.
  intros Hb Hn Hq Hrun.
  apply (run_invariant powf noise rng
           (fun queue => KeyPressed Scan_R ∉ queue)
           (fun st => exists b',
                mBoids (mFlock st.2) !! i = Some b' /\ has_nan (mPos b') = true
                /\ mRadius b' = mRadius b /\ mColor b' = mColor b))
    with (input := input) (st := st); try done.
  - clear. intros k app queue app' Hr (b' & Hb' & Hn' & Hrad & Hcol) _ Happ.
    apply handleEvents_keeps in Happ as (_ & _ & _ & _ & _ & Hsame).
    destruct (Hsame Hr) as [Hbs _].
    rewrite frame_spec. cbn [snd mFlock].
    eexists. split.
    + apply update_lookup. by rewrite Hbs.
    + rewrite update_boid_has_nan by done. done.
  - by exists b.
Qed.
End AppNaN.

Lemma pointer_on_boid_nan_witness :
  exists st,
    App.run sample_pow no_noise sample_rng [[MouseMoved (100, 50)%Z]]
      (0, one_boid_app) = Running st
    /\ mBoids (mFlock st.2) !! 0
       = Some (mkBoid nan_vec nan_vec (of_int 2) white).
Proof.
  apply (pointer_on_boid_nan sample_pow no_noise sample_rng 0 one_boid_app
           [MouseMoved (100, 50)%Z] (100, 50)%Z 0
           (mkBoid (mkVec (of_int 100) (of_int 50)) vzero (of_int 2) white));
    [reflexivity|not_in_queue|not_in_queue|reflexivity|simpl; lia|simpl; lia
    |reflexivity|reflexivity].
Defined.

Lemma coincident_after_make_witness :
  exists (app : FlockingApp float) b,
    App.make stuck_rng 1524 1024 2 = Some app
    /\ mBoids (update sample_pow no_noise 0 (mFlock app)).2 !! 0
       = Some (mkBoid nan_vec nan_vec (mRadius b) (mColor b)).
Proof.
  eexists. eexists. split; [vm_compute; reflexivity|].
  eapply (coincident_after_make sample_pow no_noise stuck_rng 1524 1024 2
            _ 0 0 1);
    [vm_compute; reflexivity|reflexivity|reflexivity|lia|reflexivity].
Defined.

Lemma nan_until_reset_witness :
  exists st' b',
    App.run sample_pow no_noise sample_rng [sample_queue; []] (0, nan_app)
    = Running st'
    /\ mBoids (mFlock st'.2) !! 0 = Some b' /\ has_nan (mPos b') = true
    /\ mRadius b' = mRadius nan_boid /\ mColor b' = mColor nan_boid.
Proof.
  eexists.
  match goal with
  | |- exists b', ?r = Running ?s /\ _ =>
      assert (Hrun : r = Running s) by (vm_compute; reflexivity)
  end.
  assert (Hq : Forall (fun queue => KeyPressed Scan_R ∉ queue)
                      [sample_queue; []]).
  { repeat constructor; not_in_queue. }
  destruct (nan_until_reset sample_pow no_noise sample_rng
              [sample_queue; []] (0, nan_app) _ 0 nan_boid
              eq_refl eq_refl Hq (or_introl Hrun)) as (b' & Hb').
  exists b'. split; [exact Hrun|exact Hb'].
Defined.

